(** * geth-local: the network emulation harness (cmd/ethemu, emu)

    A shallow embedding of the emulation harness of geth-local:
    - [emu]        : emu/types.go  (Node, Config, LoadConfig, StoreConfig);
    - [GenDegree]  : cmd/ethemu/gencmd.go  (setPeers, degree-bounded policy);
    - [GenDensity] : the generator's density revision, kept at the end of
                     cmd/ethemu/main.go  (setPeers, getPij);
    - [Continuous] : cmd/ethemu/main.go, [ethemu] with the continuous driver
                     (transaction task);
    - [Bench]      : cmd/ethemu/main.go, [ethemu] with the benchmark driver
                     (transaction-count mode and block-height mode);
    - [GenCmd]     : cmd/ethemu/gencmd.go  (setId, setMiners, generateConfig);
    - [emuLookup]  : emu/types.go  (GetAddrById);
    - [Sealing]    : cmd/ethemu/main.go, [ethemu] (sealing task);
    - [Wiring]     : cmd/ethemu/main.go, [ethemu] (starting the nodes and
                     connecting the peers);
    - [Badger]     : the badger key-value store (batch, badgerIterator);
    - [FreezerIndex] : core/rawdb  (indexEntry);
    - [Tracker]    : p2p/tracker  (clean, schedule).

    Conventions.  Go's [int] and [uint64] are [Z] with the wrap-around written
    out where the code can reach it; [float64] is Rocq's primitive binary64.
    A [common.Address] (20 bytes) is the natural number its bytes spell.  A
    call to [rand.Intn] reads the next raw value of an explicit source of
    entropy: a list where the loop that draws is unbounded (the list is then
    the loop's fuel), a stream where the number of draws is fixed.  Loops that
    the source leaves unbounded take fuel, and [OutOfFuel] means "still
    looping". *)

From Stdlib Require Import ZArith Lia Floats.
From stdpp Require Import gmap list strings countable.

Open Scope Z_scope.

(** ** Outcomes of possibly panicking, possibly diverging code *)

Inductive outcome (A : Type) : Type :=
| Done (a : A)
| Panic
| OutOfFuel.
Arguments Done {A} a.
Arguments Panic {A}.
Arguments OutOfFuel {A}.

#[export] Instance outcome_ret : MRet outcome := fun A a => Done a.

#[export] Instance outcome_bind : MBind outcome := fun A B k m =>
  match m with
  | Done a => k a
  | Panic => Panic
  | OutOfFuel => OutOfFuel
  end.

(** ** math/rand *)

(** [rand.Intn(n)] panics when [n <= 0] and otherwise returns a value of
    [0, n); [raw] is the entropy the generator consumed for this call. *)
Definition Intn (n raw : Z) : option Z :=
  if n <=? 0 then None else Some (raw mod n).

(** ** Proof steps *)

(** Membership in a set to which an edge was just added. *)
Ltac in_edge :=
  apply elem_of_union;
  first [ left; apply elem_of_singleton; reflexivity
        | right; congruence ].

(** ** Fixed-width integers *)

Definition two64 : Z := 2 ^ 64.
Definition two63 : Z := 2 ^ 63.

(** A value reduced to [uint64]. *)
Definition u64 (z : Z) : Z := z mod two64.

(** Go's [int(x)] on a 64-bit platform: the two's complement reading of the
    low 64 bits. *)
Definition to_int (z : Z) : Z := (z + two63) mod two64 - two63.

(** * emu/types.go *)

Module emu.

Record Node : Type := mkNode {
  Identity : Z;
  Address : N;
  IsMiner : bool;
  Peers : list N
}.

(** The address, and the peer list, stored at index [p] of a node slice. *)
Definition addrAt (nodes : list Node) (p : nat) : N :=
  default 0%N (Address <$> nodes !! p).

Definition peersAt (nodes : list Node) (p : nat) : list N :=
  default [] (Peers <$> nodes !! p).

Definition CONFIG_JSON : string := "config.json".

(** [Nodes] is a Go map: [None] is the nil map. *)
Record Config : Type := mkConfig {
  Period : Z;
  MinTxInterval : Z;
  MaxTxInterval : Z;
  Nodes : option (gmap N Node);
  Latency : Z;
  Bandwidth : Z
}.

(** The zero value of [Config]: what [Global] holds when a process starts. *)
Definition zeroConfig : Config := mkConfig 0 0 0 None 0 0.

(** The entries of the roster; a nil map has none. *)
Definition roster (c : Config) : gmap N Node := default ∅ (Nodes c).

(** Go errors the two operations can return. *)
Inductive error : Type :=
| ErrNotExist (path : string)     (* *PathError wrapping ENOENT *)
| ErrWrite (path : string)        (* any failure of os.WriteFile *)
| ErrMarshal                      (* json.MarshalIndent failed *)
| ErrDecode.                      (* json.Unmarshal failed *)

(** The files of the machine: the content of each readable file by path, and
    the paths at which creating or truncating a file is refused. *)
Record FS : Type := mkFS {
  files : gmap string (list Byte.byte);
  refused : gset string
}.

(** [os.ReadFile]. *)
Definition ReadFile (fs : FS) (name : string) : list Byte.byte + error :=
  match files fs !! name with
  | Some data => inl data
  | None => inr (ErrNotExist name)
  end.

(** [os.WriteFile]: the whole content is replaced. *)
Definition WriteFile (fs : FS) (name : string) (data : list Byte.byte)
  : option error * FS :=
  if decide (name ∈ refused fs) then (Some (ErrWrite name), fs)
  else (None, mkFS (<[name := data]> (files fs)) (refused fs)).

(** What [json.Unmarshal(bytes, &Global)] leaves in [Global] when [bytes]
    encodes [d] and [Global] held [g]: every field of the struct is present in
    the encoding and is overwritten; for the map, JSON null sets it to nil,
    and a JSON object is stored key by key into the map that is already there
    (a nil map is allocated first), so entries of [g] under other keys stay. *)
Definition overlay (d g : Config) : Config :=
  mkConfig (Period d) (MinTxInterval d) (MaxTxInterval d)
    (match Nodes d with
     | None => None
     | Some m => Some (m ∪ roster g)
     end)
    (Latency d) (Bandwidth d).

Section Store.

(** [path.Join], and [encoding/json] at the type [Config]. [Unmarshal] takes
    the bytes and the value its target holds, and returns the error (if any)
    and the value the target holds afterwards. *)
Variable Join : string -> string -> string.
Variable MarshalIndent : Config -> list Byte.byte + error.
Variable Unmarshal : list Byte.byte -> Config -> option error * Config.

(** The state the two functions act on: the files and the package variable
    [Global]. *)
Definition state : Type := FS * Config.

Definition LoadConfig (dataDir : string) (st : state) : option error * state :=
  let configPath := Join dataDir CONFIG_JSON in
  match ReadFile st.1 configPath with
  | inr err => (Some err, st)
  | inl bytes =>
    let r := Unmarshal bytes st.2 in
    (r.1, (st.1, r.2))
  end.

Definition StoreConfig (dataDir : string) (st : state) : option error * state :=
  match MarshalIndent st.2 with
  | inr err => (Some err, st)
  | inl jsonString =>
    let configPath := Join dataDir CONFIG_JSON in
    let r := WriteFile st.1 configPath jsonString in
    (r.1, (r.2, st.2))
  end.

End Store.

(** A concrete encoding, used to run the two functions: the binary digits of
    the value's code, one ASCII digit per byte. *)
#[export] Instance Node_eq_dec : EqDecision Node.
Proof. solve_decision. Defined.

#[export] Instance Node_countable : Countable Node.
Proof.
  refine (inj_countable'
            (fun nd => (Identity nd, Address nd, IsMiner nd, Peers nd))
            (fun t => mkNode t.1.1.1 t.1.1.2 t.1.2 t.2) _).
  by intros [].
Defined.

#[export] Instance Config_eq_dec : EqDecision Config.
Proof. solve_decision. Defined.

#[export] Instance Config_countable : Countable Config.
Proof.
  refine (inj_countable'
            (fun c => (Period c, MinTxInterval c, MaxTxInterval c, Nodes c,
                       Latency c, Bandwidth c))
            (fun t => mkConfig t.1.1.1.1.1 t.1.1.1.1.2 t.1.1.1.2 t.1.1.2
                               t.1.2 t.2) _).
  by intros [].
Defined.

Fixpoint digits (p : positive) : list Byte.byte :=
  match p with
  | xH => []
  | xO q => Byte.x30 :: digits q
  | xI q => Byte.x31 :: digits q
  end.

Fixpoint undigits (l : list Byte.byte) : option positive :=
  match l with
  | [] => Some xH
  | b :: l' =>
    match undigits l' with
    | None => None
    | Some q =>
      match b with
      | Byte.x30 => Some (xO q)
      | Byte.x31 => Some (xI q)
      | _ => None
      end
    end
  end.

Definition digitsJoin (dir name : string) : string := dir +:+ "/" +:+ name.

Definition digitsMarshal (c : Config) : list Byte.byte + error :=
  inl (digits (encode c)).

Definition digitsUnmarshal (b : list Byte.byte) (g : Config)
  : option error * Config :=
  match undigits b ≫= decode with
  | Some d => (None, overlay d g)
  | None => (Some ErrDecode, g)
  end.

(** A descriptor of three nodes, one of them a miner. *)
Definition sampleNodes : gmap N Node :=
  <[11%N := mkNode 0 11%N false [13%N; 12%N]]>
  (<[12%N := mkNode 1 12%N true [11%N]]>
  (<[13%N := mkNode 2 13%N false [11%N]]> ∅)).

Definition sampleConfig : Config := mkConfig 15 100 300 (Some sampleNodes) 0 0.

Definition emptyFS : FS := mkFS ∅ ∅.

End emu.

(** * cmd/ethemu/gencmd.go: the degree-bounded peering policy *)

Module GenDegree.
Import emu.

(** [peers[i].Cardinality()], as a Go [int]. *)
Definition Cardinality (s : gset nat) : Z := Z.of_nat (size s).

(** The closure [check] of [setPeers]. *)
Definition check (minPeer maxPeer : Z) (peers : list (gset nat)) : bool :=
  forallb (fun node =>
             negb ((Cardinality node <? minPeer) || (maxPeer <? Cardinality node)))
          peers.

(** [for peers[i].Cardinality() < minPeer { ... }]: one entropy value per
    iteration.  Indexing outside the slice panics. *)
Fixpoint fill (n : nat) (minPeer maxPeer : Z) (i : nat)
    (rnd : list Z) (peers : list (gset nat)) {struct rnd}
  : outcome (list (gset nat) * list Z) :=
  match peers !! i with
  | None => Panic
  | Some pi_ =>
    if Cardinality pi_ <? minPeer then
      match rnd with
      | [] => OutOfFuel
      | raw :: rnd' =>
        match Intn (Z.of_nat n) raw with
        | None => Panic
        | Some jz =>
          let j := Z.to_nat jz in
          if decide (j = i) then fill n minPeer maxPeer i rnd' peers
          else
            match peers !! j with
            | None => Panic
            | Some pj =>
              if maxPeer <=? Cardinality pj then fill n minPeer maxPeer i rnd' peers
              else
                fill n minPeer maxPeer i rnd'
                  (<[j := {[i]} ∪ pj]> (<[i := {[j]} ∪ pi_]> peers))
            end
        end
      end
    else Done (peers, rnd)
  end.

(** [for i := range nodes { ... }]: one pass over all the nodes. *)
Fixpoint pass (n : nat) (minPeer maxPeer : Z) (is_ : list nat)
    (rnd : list Z) (peers : list (gset nat))
  : outcome (list (gset nat) * list Z) :=
  match is_ with
  | [] => Done (peers, rnd)
  | i :: rest =>
    st ← fill n minPeer maxPeer i rnd peers;
    pass n minPeer maxPeer rest st.2 st.1
  end.

(** [for !check() { pass }]. *)
Fixpoint generate (fuel : nat) (n : nat) (minPeer maxPeer : Z)
    (rnd : list Z) (peers : list (gset nat)) : outcome (list (gset nat)) :=
  if check minPeer maxPeer peers then Done peers
  else
    match fuel with
    | O => OutOfFuel
    | S fuel' =>
      st ← pass n minPeer maxPeer (seq 0 n) rnd peers;
      generate fuel' n minPeer maxPeer st.2 st.1
    end.

Section Assign.
(** [peers[i].Iter()] yields the members in an order of its own. *)
Variable Iter : gset nat -> list nat.

(** [nodes[i].Peers = append(nodes[i].Peers, nodes[peer].Address)], for every
    member of [peers[i]]. *)
Fixpoint appendPeers (nodes : list Node) (ps : list nat) (acc : list N)
  : outcome (list N) :=
  match ps with
  | [] => Done acc
  | p :: ps' =>
    match nodes !! p with
    | None => Panic
    | Some nd => appendPeers nodes ps' (acc ++ [Address nd])
    end
  end.

Fixpoint assign (nodes : list Node) (todo : list (Node * gset nat))
  : outcome (list Node) :=
  match todo with
  | [] => Done []
  | (nd, s) :: todo' =>
    ps ← appendPeers nodes (Iter s) (Peers nd);
    rest ← assign nodes todo';
    Done (mkNode (Identity nd) (Address nd) (IsMiner nd) ps :: rest)
  end.

Definition setPeers (fuel : nat) (rnd : list Z) (minPeer maxPeer : Z)
    (nodes : list Node) : outcome (list Node) :=
  let n := length nodes in
  peers ← generate fuel n minPeer maxPeer rnd (replicate n ∅);
  assign nodes (zip nodes peers).
End Assign.

(** The shape of the index sets while [setPeers] runs: every member of
    [peers[i]] is another node's index, and the edge is recorded at both ends. *)
Definition wf (n : nat) (peers : list (gset nat)) : Prop :=
  length peers = n /\
  forall i s, peers !! i = Some s ->
    forall j, j ∈ s ->
      (j < n)%nat /\ j <> i /\ exists t, peers !! j = Some t /\ i ∈ t.

(** What [assign] writes into one node, given its index set. *)
Definition assigned (Iter : gset nat -> list nat) (nodes : list Node)
    (e : Node * gset nat) (a : Node) : Prop :=
  exists nds, Forall2 (fun p x => nodes !! p = Some x) (Iter e.2) nds /\
    a = mkNode (Identity e.1) (Address e.1) (IsMiner e.1)
               (Peers e.1 ++ (Address <$> nds)).

(** [setPeers] returns for some amount of entropy. *)
Definition terminates (Iter : gset nat -> list nat) (minPeer maxPeer : Z)
    (nodes : list Node) : Prop :=
  exists fuel rnd nodes',
    setPeers Iter fuel rnd minPeer maxPeer nodes = Done nodes'.

(** Sample rosters, as [generateConfig] hands them to [setPeers]. *)
Definition roster2 : list Node :=
  [mkNode 0 11%N false []; mkNode 1 12%N true []].

Definition roster3 : list Node :=
  [mkNode 0 11%N false []; mkNode 1 12%N true []; mkNode 2 13%N false []].

Definition roster3_peered : list Node :=
  [mkNode 0 11%N false [13%N; 12%N]; mkNode 1 12%N true [11%N];
   mkNode 2 13%N false [11%N]].

End GenDegree.

(** * The generator's density revision: the density-probability policy *)

Module GenDensity.
Import emu.

(** [float64(z)] for a Go [int] [z]: the nearest double. *)
Definition float64 (z : Z) : float :=
  if z <? 0 then PrimFloat.opp (PrimFloat.of_uint63 (Uint63.of_Z (- z)))
  else PrimFloat.of_uint63 (Uint63.of_Z z).

(** [int(f)] for a [float64] [f]: truncation towards zero; outside [int64]
    (and for NaN) the amd64 result, the least [int64]. *)
Definition int (f : float) : Z :=
  match Prim2SF f with
  | S754_zero _ => 0
  | S754_finite s m e =>
    let v := if 0 <=? e then Z.pos m * 2 ^ e else Z.pos m / 2 ^ (- e) in
    let z := if s then - v else v in
    if (- two63 <=? z) && (z <? two63) then z else - two63
  | _ => - two63
  end.

(** [math.Min]. *)
Definition Min (x y : float) : float :=
  if ((x =? neg_infinity) || (y =? neg_infinity))%float then neg_infinity
  else if is_nan x || is_nan y then nan
  else if ((x =? 0) && (x =? y))%float then (if get_sign x then x else y)
  else if (x <? y)%float then x else y.

(** The closure [getPij] of [setPeers]; [len] is [len(nodes)], which it
    captures.  [theta] is the Go [int] the closure converts at the end. *)
Definition dis (i j : Z) : Z := int (PrimFloat.abs (float64 (i - j))).

Definition theta (len : Z) (dens : float) (maxDis i j : Z) : Z :=
  if (0 <=? dens - Min (float64 (dis i j)) (float64 (len - dis i j))
                   / float64 maxDis)%float
  then 1 else 0.

Definition getPij (len : Z) (dens prop : float) (maxDis i j : Z) : float :=
  (prop * dens + (1 - prop) * float64 (theta len dens maxDis i j))%float.

(** [density] and [maxDist] of [setPeers]; [/] on [int] truncates. *)
Definition density (peerNum len : Z) : float :=
  (float64 peerNum / float64 (len - 1))%float.

Definition maxDist (len : Z) : Z := Z.quot len 2.

(** [randNum := float64(rand.Intn(100)) / float64(100)]. *)
Definition randNum (raw : Z) : outcome float :=
  match Intn 100 raw with
  | None => Panic
  | Some k => Done (float64 k / float64 100)%float
  end.

(** [nodes[i].Peers = append(nodes[i].Peers, a)]; an index outside the slice
    panics. *)
Definition appendPeer (nodes : list Node) (i : nat) (a : N)
  : outcome (list Node) :=
  match nodes !! i with
  | None => Panic
  | Some nd =>
    Done (<[i := mkNode (Identity nd) (Address nd) (IsMiner nd)
                        (Peers nd ++ [a])]> nodes)
  end.

Definition addressAt (nodes : list Node) (i : nat) : outcome N :=
  match nodes !! i with
  | None => Panic
  | Some nd => Done (Address nd)
  end.

(** The body of the inner loop for the pair [(i, j)], drawing [raw]. *)
Definition pair (peerNum : Z) (i j : nat) (raw : Z) (nodes : list Node)
  : outcome (list Node) :=
  let len := Z.of_nat (length nodes) in
  randNum ← randNum raw;
  if (randNum <? getPij len (density peerNum len) 0.25 (maxDist len)
                    (Z.of_nat i) (Z.of_nat j))%float
  then
    aj ← addressAt nodes j;
    nodes1 ← appendPeer nodes i aj;
    ai ← addressAt nodes1 i;
    appendPeer nodes1 j ai
  else Done nodes.

(** [for j := i + 1; j < len(nodes); j++], over the remaining values of [j];
    the entropy is the stream [rnd], read from position [pos] on. *)
Fixpoint inner (peerNum : Z) (rnd : nat -> Z) (i : nat) (js : list nat)
    (pos : nat) (nodes : list Node) : outcome (list Node * nat) :=
  match js with
  | [] => Done (nodes, pos)
  | j :: js' =>
    nodes' ← pair peerNum i j (rnd pos) nodes;
    inner peerNum rnd i js' (S pos) nodes'
  end.

(** [for i := 0; i < len(nodes); i++]. *)
Fixpoint outer (peerNum : Z) (rnd : nat -> Z) (n : nat) (is_ : list nat)
    (pos : nat) (nodes : list Node) : outcome (list Node * nat) :=
  match is_ with
  | [] => Done (nodes, pos)
  | i :: is' =>
    st ← inner peerNum rnd i (seq (S i) (n - S i)) pos nodes;
    outer peerNum rnd n is' st.2 st.1
  end.

Definition setPeers (peerNum : Z) (rnd : nat -> Z) (nodes : list Node)
  : outcome (list Node) :=
  let n := length nodes in
  st ← outer peerNum rnd n (seq 0 n) 0%nat nodes;
  Done st.1.

(** The position in the stream of the draw made for the pair [(i, j)]: the
    rows before [i] take [n - 1 - k] draws each. *)
Fixpoint rowStart (n i : nat) : nat :=
  match i with
  | O => O
  | S k => (rowStart n k + (n - S k))%nat
  end.

Definition drawOf (n i j : nat) : nat := (rowStart n i + (j - S i))%nat.

(** The connection probability and the test of one pair, as formulas: the
    draw [raw] connects [i] and [j] when [k / 100], for [k] the value of
    [rand.Intn(100)], is below [0.25 * density + 0.75 * theta]. *)
Definition p_ij (peerNum len : Z) (i j : nat) : float :=
  (0.25 * density peerNum len
   + 0.75 * float64 (theta len (density peerNum len) (maxDist len)
                           (Z.of_nat i) (Z.of_nat j)))%float.

Definition decision (peerNum len : Z) (i j : nat) (raw : Z) : bool :=
  (float64 (raw mod 100) / float64 100 <? p_ij peerNum len i j)%float.

(** Whether [setPeers] connects [i] and [j] ([i < j]) on a roster of [n]
    nodes: the test of the pair on the pair's own draw. *)
Definition connects (peerNum : Z) (rnd : nat -> Z) (n i j : nat) : bool :=
  decision peerNum (Z.of_nat n) i j (rnd (drawOf n i j)).

(** Connecting [i] and [j] puts the address [x] into the peer list of [k]. *)
Definition linked (nodes : list Node) (i j k : nat) (x : N) : Prop :=
  (k = i /\ x = addrAt nodes j) \/ (k = j /\ x = addrAt nodes i).

(** A roster of six fresh nodes and a fixed stream. *)
Definition roster6 : list Node :=
  [mkNode 0 20%N false []; mkNode 1 21%N false []; mkNode 2 22%N false [];
   mkNode 3 23%N false []; mkNode 4 24%N false []; mkNode 5 25%N false []].

Definition stream (k : nat) : Z := Z.of_nat k * 37 + 11.

End GenDensity.

(** * cmd/ethemu/main.go: the continuous driver *)

Module Continuous.
Import emu.

(** [for _, node := range emu.Global.Nodes { if !node.IsMiner { addrs =
    append(addrs, node.Address) } }], over the entries in the order the
    [range] statement happens to yield them. *)
Fixpoint nonMiners (iter : list (N * Node)) (addrs : list N) : list N :=
  match iter with
  | [] => addrs
  | (_, node) :: rest =>
    nonMiners rest (if IsMiner node then addrs else addrs ++ [Address node])
  end.

(** The sealing task's [sealers], by address. *)
Fixpoint miners (iter : list (N * Node)) (sealers : list N) : list N :=
  match iter with
  | [] => sealers
  | (addr, node) :: rest =>
    miners rest (if IsMiner node then sealers ++ [addr] else sealers)
  end.

(** [addrs[rand.Intn(len(addrs))]]. *)
Definition pick (addrs : list N) (raw : Z) : outcome N :=
  match Intn (Z.of_nat (length addrs)) raw with
  | None => Panic
  | Some k =>
    match addrs !! Z.to_nat k with
    | Some a => Done a
    | None => Panic
    end
  end.

(** [for from == to { to = addrs[rand.Intn(len(addrs))] }]. *)
Fixpoint resample (addrs : list N) (from to : N) (rnd : list Z)
  : outcome (N * list Z) :=
  if decide (from = to) then
    match rnd with
    | [] => OutOfFuel
    | raw :: rnd' =>
      to' ← pick addrs raw;
      resample addrs from to' rnd'
    end
  else Done (to, rnd).

(** [time.Duration(rand.Intn(int(sleepMax-sleepMin))+int(sleepMin)) *
    time.Millisecond], in nanoseconds: the subtraction is in [uint64], the sum
    and the product in [int64]. *)
Definition Millisecond : Z := 1000000.

Definition sleepFor (sleepMin sleepMax raw : Z) : outcome Z :=
  match Intn (to_int (u64 (sleepMax - sleepMin))) raw with
  | None => Panic
  | Some r => Done (to_int (to_int (r + to_int sleepMin) * Millisecond))
  end.

(** A submission: [eths[from].SendTransaction] of [tx], once the timer of
    [after] nanoseconds has fired. *)
Record Transfer : Type := mkTransfer {
  from : N;
  to : N;
  value : Z;
  after : Z
}.

(** One pass of the transaction task's loop.  [stopSig] is made and never
    closed or sent on, so the [select] always takes the timer's branch. *)
Definition iteration (sleepMin sleepMax : Z) (addrs : list N) (rnd : list Z)
  : outcome (Transfer * list Z) :=
  match rnd with
  | [] => OutOfFuel
  | raw :: rnd1 =>
    from ← pick addrs raw;
    st ← resample addrs from from rnd1;
    match st.2 with
    | [] => OutOfFuel
    | raw' :: rnd3 =>
      d ← sleepFor sleepMin sleepMax raw';
      Done (mkTransfer from st.1 100000 d, rnd3)
    end
  end.

(** How a task stands when the fuel or the entropy is used up. *)
Inductive standing : Type := Crashed | Running.

(** The transaction task: the submissions of its first [fuel] passes. *)
Fixpoint txTask (fuel : nat) (sleepMin sleepMax : Z) (addrs : list N)
    (rnd : list Z) : list Transfer * standing :=
  match fuel with
  | O => ([], Running)
  | S fuel' =>
    match iteration sleepMin sleepMax addrs rnd with
    | Done (tx, rnd') =>
      let r := txTask fuel' sleepMin sleepMax addrs rnd' in
      (tx :: r.1, r.2)
    | Panic => ([], Crashed)
    | OutOfFuel => ([], Running)
    end
  end.

(** How [ethemu] stands when its two [go] statements have run: it stopped
    with a configuration error before them, or the tasks are launched over
    their senders and sealers. *)
Inductive startup : Type :=
| ConfigurationError
| Launched (addrs sealers : list N).

(** [ethemu] from [emu.LoadConfig] (whose error it drops) to the two [go]
    statements: every node of the roster is built and started, and the tasks
    are launched over the senders and sealers found in the roster.  Nothing on
    the way inspects how many non-miners there are. *)
Definition ethemu (iter : list (N * Node)) : startup :=
  Launched (nonMiners iter []) (miners iter []).

(** Rosters in some iteration order. *)
Definition oneSender : list (N * Node) :=
  [(12%N, mkNode 1 12%N true [11%N]); (11%N, mkNode 0 11%N false [12%N])].

Definition noSender : list (N * Node) :=
  [(12%N, mkNode 1 12%N true [])].

End Continuous.

(** * cmd/ethemu/main.go: the benchmark driver *)

Module Bench.
Import emu Continuous.

(** How a driver goroutine stands: it called [os.Exit(0)] in the state [w],
    it returned, it panicked, or it is still looping when the fuel or the
    entropy is used up. *)
Inductive ending (net : Type) : Type :=
| Exited (w : net)
| Returned (w : net)
| Panicked
| Spinning.
Arguments Exited {net} w.
Arguments Returned {net} w.
Arguments Panicked {net}.
Arguments Spinning {net}.

Definition Second : Z := 1000000000.

(** [for addr := range emu.Global.Nodes { sealers = append(sealers,
    eths[addr]) }]: every node of the roster is a sealer (by address). *)
Fixpoint allSealers (iter : list (N * Node)) (sealers : list N) : list N :=
  match iter with
  | [] => sealers
  | (addr, _) :: rest => allSealers rest (sealers ++ [addr])
  end.

(** [for _, node := range emu.Global.Nodes { addrs = append(addrs,
    node.Address) }]. *)
Fixpoint allAddrs (iter : list (N * Node)) (addrs : list N) : list N :=
  match iter with
  | [] => addrs
  | (_, node) :: rest => allAddrs rest (addrs ++ [Address node])
  end.

Section Driver.

(** The emulated network, seen through the calls the driver makes on the
    node handles ([eths[addr]], by address):
    - [Height w a] is [CurrentBlock().Number.Uint64()] of node [a];
    - [InPool w a h] tells whether [TxPool().Get(h)] of node [a] is non-nil;
    - [Etherbase w a] is [None] when [Etherbase()] returns an error;
    - [Work a w] is the state after [Miner().Work()] on node [a] has returned;
    - [SendTransaction from to value w] gives the hash and the next state
      (the driver drops the error);
    - [Sleep d w] is the state after [time.Sleep(d)];
    - [step w] is what the nodes' own goroutines make of [w] between two
      successive calls of the driver. *)
Variable net : Type.
Variable Height : net -> N -> Z.
Variable InPool : net -> N -> Z -> bool.
Variable Etherbase : net -> N -> option N.
Variable Work : N -> net -> net.
Variable SendTransaction : N -> N -> Z -> net -> Z * net.
Variable Sleep : Z -> net -> net.
Variable step : net -> net.

(** *** Block-height mode *)

(** One round of the polling loop: [counter] counts the sealers whose current
    height differs from [curHeight]. *)
Fixpoint pollHeights (sealers : list N) (curHeight : Z) (w : net)
    (counter : nat) : nat * net :=
  match sealers with
  | [] => (counter, w)
  | sealer :: rest =>
    pollHeights rest curHeight (step w)
      (if decide (Height w sealer = curHeight) then counter else S counter)
  end.

(** The heights one round reads, in order. *)
Fixpoint heightsRead (sealers : list N) (w : net) : list Z :=
  match sealers with
  | [] => []
  | sealer :: rest => Height w sealer :: heightsRead rest (step w)
  end.

(** [for { ...; if counter == 0 { break } }]. *)
Fixpoint awaitHeights (fuel : nat) (sealers : list N) (curHeight : Z)
    (w : net) : option net :=
  match fuel with
  | O => None
  | S fuel' =>
    let r := pollHeights sealers curHeight w 0%nat in
    if decide (r.1 = 0%nat) then Some r.2
    else awaitHeights fuel' sealers curHeight r.2
  end.

(** The goroutine of the block-height mode, from the expected height
    [curHeight] on.  [sealers] holds every node of the roster.  [stopSig] is
    never closed, so the [select] takes its [default] branch. *)
Fixpoint heightMode (fuel : nat) (rnd : list Z) (sealers : list N)
    (curHeight : Z) (w : net) : ending net :=
  match fuel with
  | O => Spinning
  | S fuel' =>
    match awaitHeights fuel sealers curHeight w with
    | None => Spinning
    | Some w1 =>
      let w2 := Sleep Second w1 in
      match rnd with
      | [] => Spinning
      | raw :: rnd' =>
        match pick sealers raw with
        | Done sealer =>
          match Etherbase w2 sealer with
          | None => Returned w2
          | Some _ =>
            let w3 := Work sealer w2 in
            let curHeight' := u64 (curHeight + 1) in
            if 110 <=? curHeight' then Exited w3
            else heightMode fuel' rnd' sealers curHeight' w3
          end
        | _ => Panicked
        end
      end
    end
  end.

(** *** Transaction-count mode *)

(** One round of the polling loop: [counter] counts the sealers whose pool
    does not hold the transaction ([tx == nil]). *)
Fixpoint pollPools (sealers : list N) (hash : Z) (w : net) (counter : nat)
  : nat * net :=
  match sealers with
  | [] => (counter, w)
  | sealer :: rest =>
    pollPools rest hash (step w)
      (if InPool w sealer hash then counter else S counter)
  end.

(** What one round reads: whether each pool holds the transaction. *)
Fixpoint poolsRead (sealers : list N) (hash : Z) (w : net) : list bool :=
  match sealers with
  | [] => []
  | sealer :: rest => InPool w sealer hash :: poolsRead rest hash (step w)
  end.

(** A round of polling, started in some state, found the transaction in
    every pool. *)
Definition inEveryPool (sealers : list N) (hash : Z) : Prop :=
  exists wb, (pollPools sealers hash wb 0%nat).1 = 0%nat /\
             Forall (fun b => b = true) (poolsRead sealers hash wb).

(** How the polling loop of one transaction stands, with the counter. *)
Inductive polled : Type :=
| Broke (w : net) (txNum : Z)        (* [break]: on to the next transaction *)
| ExitedAt (w : net) (txNum : Z)     (* [os.Exit(0)] *)
| Polling (txNum : Z).

(** [for { ...; if counter == 0 { break }; txNum++; if txNum >= 5050 {
    os.Exit(0) } }]. *)
Fixpoint awaitPools (fuel : nat) (sealers : list N) (hash : Z) (txNum : Z)
    (w : net) : polled :=
  match fuel with
  | O => Polling txNum
  | S fuel' =>
    let r := pollPools sealers hash w 0%nat in
    if decide (r.1 = 0%nat) then Broke r.2 txNum
    else
      let txNum' := to_int (txNum + 1) in
      if 5050 <=? txNum' then ExitedAt r.2 txNum'
      else awaitPools fuel' sealers hash txNum' r.2
  end.

(** The run of the transaction-count mode: how it ends, the counter, and the
    hashes of the transactions submitted so far (latest first). *)
Record txRun : Type := mkTxRun {
  ended : ending net;
  counted : Z;
  submitted : list Z
}.

(** The goroutine of the transaction-count mode.  [addrs] and [sealers] hold
    every node of the roster. *)
Fixpoint txMode (fuel : nat) (rnd : list Z) (addrs sealers : list N)
    (txNum : Z) (sent : list Z) (w : net) : txRun :=
  match fuel with
  | O => mkTxRun Spinning txNum sent
  | S fuel' =>
    match rnd with
    | [] => mkTxRun Spinning txNum sent
    | raw :: rnd1 =>
      match (from ← pick addrs raw;
             st ← resample addrs from from rnd1;
             Done (from, st)) with
      | Done (from, (to, rnd2)) =>
        let r := SendTransaction from to txNum w in
        match awaitPools fuel sealers r.1 txNum r.2 with
        | Broke w' txNum' =>
          txMode fuel' rnd2 addrs sealers txNum' (r.1 :: sent) w'
        | ExitedAt w' txNum' => mkTxRun (Exited w') txNum' (r.1 :: sent)
        | Polling txNum' => mkTxRun Spinning txNum' (r.1 :: sent)
        end
      | Panic => mkTxRun Panicked txNum sent
      | OutOfFuel => mkTxRun Spinning txNum sent
      end
    end
  end.

(** The two goroutines as [ethemu] starts them, over the roster in the order
    its [range] statements yield it: [curHeight := uint64(0)], [txNum := 0]. *)
Definition blockHeightMode (fuel : nat) (rnd : list Z)
    (iter : list (N * Node)) (w : net) : ending net :=
  heightMode fuel rnd (allSealers iter []) 0 w.

Definition txCountMode (fuel : nat) (rnd : list Z)
    (iter : list (N * Node)) (w : net) : txRun :=
  txMode fuel rnd (allAddrs iter []) (allSealers iter []) 0 [] w.

End Driver.

Arguments Broke {net} w txNum.
Arguments ExitedAt {net} w txNum.
Arguments Polling {net} txNum.
Arguments ended {net} t.
Arguments counted {net} t.
Arguments submitted {net} t.

(** *** Two small networks to run the drivers on *)

(** A network as the height and the pool of every node. *)
Record lan : Type := mkLan {
  heights : gmap N Z;
  pools : gmap N (list Z);
  nextHash : Z
}.

Definition lanHeight (w : lan) (a : N) : Z := default 0 (heights w !! a).

Definition lanInPool (w : lan) (a : N) (h : Z) : bool :=
  bool_decide (h ∈ default [] (pools w !! a)).

Definition lanEtherbase (w : lan) (a : N) : option N := Some a.

(** The sealer extends its own chain by one block. *)
Definition lanWork (a : N) (w : lan) : lan :=
  mkLan (<[a := lanHeight w a + 1]> (heights w)) (pools w) (nextHash w).

(** The transaction enters the sender's pool. *)
Definition lanSend (from to : N) (value : Z) (w : lan) : Z * lan :=
  (nextHash w,
   mkLan (heights w)
         (<[from := nextHash w :: default [] (pools w !! from)]> (pools w))
         (nextHash w + 1)).

(** Block propagation: every node catches up with the longest chain. *)
Definition lanSync (w : lan) : lan :=
  let top := map_fold (fun _ h acc => Z.max h acc) 0 (heights w) in
  mkLan ((fun _ => top) <$> heights w) (pools w) (nextHash w).

(** Transaction gossip: every pool receives what any pool holds. *)
Definition lanGossip (w : lan) : lan :=
  let all := map_fold (fun _ txs acc => txs ++ acc) [] (pools w) in
  mkLan (heights w) ((fun _ => all) <$> pools w) (nextHash w).

(** Fuel for a little more than 5050 rounds of polling. *)
Definition rounds5051 : nat := Z.to_nat 5051.

(** Two nodes, 11 and 12: the network and the roster. *)
Definition lan0 : lan :=
  mkLan (<[11%N := 0]> (<[12%N := 0]> ∅)) (<[11%N := []]> (<[12%N := []]> ∅)) 1.

Definition pairOfNodes : list (N * Node) :=
  [(11%N, mkNode 0 11%N false [12%N]); (12%N, mkNode 1 12%N false [11%N])].

End Bench.

(** * cmd/ethemu/gencmd.go: identities, miners, intervals and the roster *)

Module GenCmd.
Import emu.

(** [fmt.Sprintf("%0wd", n)] for [n >= 0]: the [w] low decimal digits of [n],
    most significant first. *)
Definition digitChar (d : Z) : Ascii.ascii :=
  Ascii.ascii_of_nat (48 + Z.to_nat d).

Fixpoint fixedWidth (w : nat) (n : Z) : string :=
  match w with
  | O => ""
  | S w' => fixedWidth w' (n / 10) +:+ String (digitChar (n mod 10)) ""
  end.

(** The number of digits [%06d] prints: six, or as many as [n] has (a
    [uint64] has at most twenty). *)
Fixpoint widthFrom (fuel w : nat) (n : Z) : nat :=
  match fuel with
  | O => w
  | S fuel' => if n <? 10 ^ Z.of_nat w then w else widthFrom fuel' (S w) n
  end.

(** [fmt.Sprintf("emu%06d", id)] for a [uint64] [id]. *)
Definition emuName (id : Z) : string :=
  "emu" +:+ fixedWidth (widthFrom 14 6 id) id.

(** Reading a decimal numeral back, after the prefix of three letters. *)
Fixpoint readDec (acc : Z) (s : string) : Z :=
  match s with
  | "" => acc
  | String c s' => readDec (10 * acc + (Z.of_nat (Ascii.nat_of_ascii c) - 48)) s'
  end.

Definition readName (s : string) : Z :=
  match s with
  | String _ (String _ (String _ s')) => readDec 0 s'
  | _ => 0
  end.

(** [setId]: [node.Identity = uint64(i)] for the node at index [i]. *)
Fixpoint setIdFrom (i : nat) (nodes : list Node) : list Node :=
  match nodes with
  | [] => []
  | nd :: rest =>
    mkNode (Z.of_nat i) (Address nd) (IsMiner nd) (Peers nd)
      :: setIdFrom (S i) rest
  end.

Definition setId (nodes : list Node) : list Node := setIdFrom 0 nodes.

(** [setMiners], first loop: [for miners.Cardinality() < num {
    miners.Add(mrand.Intn(len(nodes))) }]. *)
Fixpoint drawMiners (n : nat) (num : Z) (rnd : list Z) (miners : gset nat)
  : outcome (gset nat * list Z) :=
  if GenDegree.Cardinality miners <? num then
    match rnd with
    | [] => OutOfFuel
    | raw :: rnd' =>
      match Intn (Z.of_nat n) raw with
      | None => Panic
      | Some j => drawMiners n num rnd' ({[Z.to_nat j]} ∪ miners)
      end
    end
  else Done (miners, rnd).

(** [setMiners], second loop: [node.IsMiner = miners.Contains(i)]. *)
Fixpoint flagFrom (miners : gset nat) (i : nat) (nodes : list Node)
  : list Node :=
  match nodes with
  | [] => []
  | nd :: rest =>
    mkNode (Identity nd) (Address nd) (bool_decide (i ∈ miners)) (Peers nd)
      :: flagFrom miners (S i) rest
  end.

Definition setMiners (num : Z) (rnd : list Z) (nodes : list Node)
  : outcome (list Node * list Z) :=
  st ← drawMiners (length nodes) num rnd ∅;
  Done (flagFrom st.1 0 nodes, st.2).

(** While [setMiners] draws: the set holds indices of nodes only, and no
    more than [num] of them. *)
Definition drawn (n : nat) (num : Z) (miners : gset nat) : Prop :=
  (forall j, j ∈ miners -> (j < n)%nat) /\
  GenDegree.Cardinality miners <= Z.max 0 num.

(** The number of nodes flagged as miners. *)
Definition minerCount (nodes : list Node) : nat :=
  length (filter (fun nd => IsMiner nd = true) nodes).

(** [generateConfig], the three interval assignments: [Period],
    [MinTxInterval], [MaxTxInterval] from the flags [blockTime], [minTx] and
    [maxTx] (Go [int]s converted to [uint64]); a zero divisor panics. *)
Definition intervals (blockTime minTx maxTx : Z) : outcome (Z * Z * Z) :=
  let period := u64 blockTime in
  if u64 maxTx =? 0 then Panic
  else
    let minInterval := u64 (period * 1000) / u64 maxTx in
    if u64 minTx =? 0 then Panic
    else
      let maxInterval := u64 (period * 1000) / u64 minTx in
      Done (period, minInterval, maxInterval).

(** [generateConfig], the roster: [for _, node := range nodes {
    emu.Global.Nodes[node.Address] = node }] on a fresh map. *)
Fixpoint fillNodes (nodes : list Node) (m : gmap N Node) : gmap N Node :=
  match nodes with
  | [] => m
  | node :: rest => fillNodes rest (<[Address node := node]> m)
  end.

(** Sample data: four fresh nodes, and the three-node slice of a generated
    descriptor. *)
Definition blank4 : list Node :=
  [mkNode 0 31%N false []; mkNode 0 32%N false []; mkNode 0 33%N false [];
   mkNode 0 34%N false []].

Definition blank4_flagged : list Node :=
  [mkNode 0 31%N false []; mkNode 0 32%N true []; mkNode 0 33%N false [];
   mkNode 0 34%N true []].

End GenCmd.

(** * emu/types.go: GetAddrById *)

Module emuLookup.
Import emu.

Inductive lookupError : Type := ErrAddrNotFound.

(** [GetAddrById], over the entries of [Global.Nodes] in the order the
    [range] statement yields them. *)
Fixpoint GetAddrById (iter : list (N * Node)) (id : string)
  : N * option lookupError :=
  match iter with
  | [] => (0%N, Some ErrAddrNotFound)
  | (addr, node) :: rest =>
    if decide (GenCmd.emuName (Identity node) = id) then (addr, None)
    else GetAddrById rest id
  end.

End emuLookup.

(** * cmd/ethemu/main.go: the sealing task of the continuous driver *)

Module Sealing.
Import emu.

Definition Second : Z := 1000000000.

(** The timer between two seals.  One revision of [ethemu] waits
    [time.Duration(emu.Global.Period) * time.Second], the other
    [time.Duration(10000+rand.Intn(5000)) * time.Millisecond]. *)
Inductive timerRule : Type :=
| PeriodTimer (period : Z)
| JitterTimer.

(** [time.Duration(emu.Global.Period) * time.Second], in nanoseconds: the
    conversion of the [uint64] and the product are in [int64]. *)
Definition periodDelay (period : Z) : Z := to_int (to_int period * Second).

(** [time.Duration(10000+rand.Intn(5000)) * time.Millisecond]. *)
Definition jitterDelay (raw : Z) : outcome Z :=
  match Intn 5000 raw with
  | None => Panic
  | Some r => Done (to_int (to_int (10000 + r) * Continuous.Millisecond))
  end.

Definition timer (rule : timerRule) (rnd : list Z) : outcome (Z * list Z) :=
  match rule with
  | PeriodTimer period => Done (periodDelay period, rnd)
  | JitterTimer =>
    match rnd with
    | [] => OutOfFuel
    | raw :: rnd' => d ← jitterDelay raw; Done (d, rnd')
    end
  end.

(** A seal: [sealer.Miner().Work()] on the node stored under [sealer], once
    the timer of [wait] nanoseconds has fired. *)
Record Seal : Type := mkSeal {
  sealer : N;
  wait : Z
}.

(** How the task stands when the fuel or the entropy is used up: it panicked,
    it returned (on an error of [Etherbase]), or it is still looping. *)
Inductive standing : Type := Crashed | Returned | Running.

Section Task.
(** Whether [sealer.Etherbase()] fails, at the given pass, on the given
    node. *)
Variable etherbaseErr : nat -> N -> bool.
Variable rule : timerRule.

(** The sealing task: the seals of its first [fuel] passes, [k] passes having
    been made before.  [stopSig] is never closed or sent on, so the [select]
    always takes the timer's branch; the goroutine that prints the head block
    a second after a seal triggers nothing and is left out. *)
Fixpoint sealTask (fuel k : nat) (sealers : list N) (rnd : list Z)
  : list Seal * standing :=
  match fuel with
  | O => ([], Running)
  | S fuel' =>
    match rnd with
    | [] => ([], Running)
    | raw :: rnd1 =>
      match Continuous.pick sealers raw with
      | Done s =>
        if etherbaseErr k s then ([], Returned)
        else
          match timer rule rnd1 with
          | Done (d, rnd2) =>
            let r := sealTask fuel' (S k) sealers rnd2 in
            (mkSeal s d :: r.1, r.2)
          | Panic => ([], Crashed)
          | OutOfFuel => ([], Running)
          end
      | Panic => ([], Crashed)
      | OutOfFuel => ([], Running)
      end
    end
  end.
End Task.

(** The number of entries of a roster whose node is a miner. *)
Definition minerEntries (iter : list (N * Node)) : nat :=
  length (filter (fun e => IsMiner e.2 = true) iter).

End Sealing.

(** * The badger key-value store: batches and iterators *)

Module Badger.

(** A Go [error] of the store. *)
Inductive error : Type := Failure (msg : string).

(** [ethdb.KeyValueWriter]: the receiver is passed along. *)
Class KeyValueWriter (W : Type) : Type := {
  Put : W -> list Byte.byte -> list Byte.byte -> W * option error;
  Delete : W -> list Byte.byte -> W * option error
}.

Inductive operationType : Type := putOperation | deleteOepration.

(** A nil [value] is the empty list. *)
Record operation : Type := mkOperation {
  op : operationType;
  key : list Byte.byte;
  value : list Byte.byte
}.

(** [len(x)], as a Go [int]. *)
Definition len {A : Type} (x : list A) : Z := Z.of_nat (length x).

Section Batch.
(** badger's own database handle and write batch, and what the calls made
    on them answer. *)
Variable DB : Type.
Variable WriteBatch : Type.
Variable NewWriteBatch : DB -> WriteBatch.
Variable wbSet :
  WriteBatch -> list Byte.byte -> list Byte.byte -> WriteBatch * option error.
Variable wbDelete : WriteBatch -> list Byte.byte -> WriteBatch * option error.
Variable wbFlush : WriteBatch -> WriteBatch * option error.
Variable wbCancel : WriteBatch -> WriteBatch.

Record batch : Type := mkBatch {
  db : DB;
  b : WriteBatch;
  ops : list operation;
  size : Z
}.

(** [NewBatch] and [NewBatchWithSize], which drops its argument. *)
Definition NewBatch (d : DB) : batch := mkBatch d (NewWriteBatch d) [] 0.

Definition NewBatchWithSize (d : DB) (size : Z) : batch :=
  mkBatch d (NewWriteBatch d) [] 0.

Definition batchPut (bt : batch) (k v : list Byte.byte)
  : batch * option error :=
  match wbSet (b bt) k v with
  | (wb, Some err) => (mkBatch (db bt) wb (ops bt) (size bt), Some err)
  | (wb, None) =>
    (mkBatch (db bt) wb (ops bt ++ [mkOperation putOperation k v])
             (to_int (size bt + to_int (len k + len v))), None)
  end.

Definition batchDelete (bt : batch) (k : list Byte.byte)
  : batch * option error :=
  match wbDelete (b bt) k with
  | (wb, Some err) => (mkBatch (db bt) wb (ops bt) (size bt), Some err)
  | (wb, None) =>
    (mkBatch (db bt) wb (ops bt ++ [mkOperation deleteOepration k []])
             (to_int (size bt + len k)), None)
  end.

Definition ValueSize (bt : batch) : Z := size bt.

Definition Write (bt : batch) : batch * option error :=
  let r := wbFlush (b bt) in
  (mkBatch (db bt) r.1 (ops bt) (size bt), r.2).

Definition Reset (bt : batch) : batch :=
  mkBatch (db bt) (NewWriteBatch (db bt)) [] 0.

#[export] Instance batch_writer : KeyValueWriter batch :=
  {| Put := batchPut; Delete := batchDelete |}.

(** The calls a holder of a batch can make on it. *)
Inductive call : Type :=
| CallPut (k v : list Byte.byte)
| CallDelete (k : list Byte.byte)
| CallWrite
| CallReset.

Definition perform (bt : batch) (c : call) : batch :=
  match c with
  | CallPut k v => (batchPut bt k v).1
  | CallDelete k => (batchDelete bt k).1
  | CallWrite => (Write bt).1
  | CallReset => Reset bt
  end.
End Batch.

Arguments mkBatch {DB WriteBatch} db b ops size.
Arguments db {DB WriteBatch} bt : rename.
Arguments b {DB WriteBatch} bt : rename.
Arguments ops {DB WriteBatch} bt : rename.
Arguments size {DB WriteBatch} bt : rename.
Arguments ValueSize {DB WriteBatch} bt.
Arguments Reset {DB WriteBatch} NewWriteBatch bt.
Arguments NewBatch {DB WriteBatch} NewWriteBatch d.
Arguments batchPut {DB WriteBatch} wbSet bt k v.
Arguments batchDelete {DB WriteBatch} wbDelete bt k.
Arguments batch_writer {DB WriteBatch} wbSet wbDelete.
Arguments perform {DB WriteBatch} NewWriteBatch wbSet wbDelete wbFlush bt c.

(** The batch [NewBatch] returns, after the calls [cs] in a row. *)
Definition performAll {DB WriteBatch : Type} (NewWriteBatch : DB -> WriteBatch)
    (wbSet : WriteBatch -> list Byte.byte -> list Byte.byte
             -> WriteBatch * option error)
    (wbDelete : WriteBatch -> list Byte.byte -> WriteBatch * option error)
    (wbFlush : WriteBatch -> WriteBatch * option error)
    (d : DB) (cs : list call) : batch DB WriteBatch :=
  foldl (perform NewWriteBatch wbSet wbDelete wbFlush)
        (NewBatch NewWriteBatch d) cs.

(** [Replay]: [for _, op := range b.ops { ... }], stopping at the first
    error of the writer. *)
Fixpoint replayOps {W : Type} `{KeyValueWriter W} (todo : list operation)
    (w : W) : W * option error :=
  match todo with
  | [] => (w, None)
  | o :: rest =>
    let r := match op o with
             | putOperation => Put w (key o) (value o)
             | deleteOepration => Delete w (key o)
             end in
    match r.2 with
    | Some err => (r.1, Some err)
    | None => replayOps rest r.1
    end
  end.

Definition Replay {DB WriteBatch W : Type} `{KeyValueWriter W}
    (bt : batch DB WriteBatch) (w : W) : W * option error :=
  replayOps (ops bt) w.

(** What one recorded operation adds to the size, and the sum over a list of
    them. *)
Definition opSize (o : operation) : Z :=
  match op o with
  | putOperation => len (key o) + len (value o)
  | deleteOepration => len (key o)
  end.

Definition opsSize (l : list operation) : Z :=
  foldr (fun o acc => opSize o + acc) 0 l.

(** The shape of the operations a batch records: a deletion carries no
    value. *)
Definition recorded (l : list operation) : Prop :=
  Forall (fun o => op o = deleteOepration -> value o = []) l.

Section Iterator.
(** badger's own iterator, whether it stands on an item, and its step. *)
Variable Iterator : Type.
Variable Valid : Iterator -> bool.
Variable Advance : Iterator -> Iterator.

Record badgerIterator : Type := mkIterator {
  iter : Iterator;
  moved : bool
}.

(** What [NewIterator] returns, [it] being badger's iterator after its
    [Seek]. *)
Definition NewIterator (it : Iterator) : badgerIterator := mkIterator it true.

Definition Next (it : badgerIterator) : badgerIterator * bool :=
  if moved it then (mkIterator (iter it) false, Valid (iter it))
  else if negb (Valid (iter it)) then (it, false)
  else
    let i := Advance (iter it) in
    (mkIterator i false, Valid i).

(** [n] calls of [Next] in a row: the iterator they leave and what they
    returned. *)
Fixpoint calls (n : nat) (it : badgerIterator) : badgerIterator * list bool :=
  match n with
  | O => (it, [])
  | S n' =>
    let r := Next it in
    let rs := calls n' r.1 in
    (rs.1, r.2 :: rs.2)
  end.

(** The position of badger's iterator after [k] steps. *)
Fixpoint advanced (k : nat) (i : Iterator) : Iterator :=
  match k with
  | O => i
  | S k' => Advance (advanced k' i)
  end.

(** The number of items badger's iterator can still stand on, among the next
    [k]. *)
Fixpoint remaining (k : nat) (i : Iterator) : nat :=
  match k with
  | O => O
  | S k' => if Valid i then S (remaining k' (Advance i)) else O
  end.
End Iterator.

Arguments mkIterator {Iterator} iter moved.
Arguments iter {Iterator} b : rename.
Arguments moved {Iterator} b : rename.
Arguments NewIterator {Iterator} it.
Arguments Next {Iterator} Valid Advance it.
Arguments calls {Iterator} Valid Advance n it.
Arguments advanced {Iterator} Advance k i.
Arguments remaining {Iterator} Valid Advance k i.

(** Sample data: a write batch that counts what it accepts and refuses keys
    longer than one byte, and a batch of two operations. *)
Definition shortKeys1 (wb : nat) (k : list Byte.byte) : nat * option error :=
  if (1 <? length k)%nat then (wb, Some (Failure "key too long"))
  else (S wb, None).

Definition sampleBatch : batch unit nat :=
  mkBatch tt 2%nat
    [mkOperation putOperation [Byte.x01] [Byte.x0a; Byte.x0b];
     mkOperation deleteOepration [Byte.x02; Byte.x03] []] 5.

End Badger.

(** * core/rawdb: the entries of a freezer table's index *)

Module FreezerIndex.

(** A [uint32] pair; in serialized form the file number takes two bytes. *)
Record indexEntry : Type := mkIndexEntry {
  filenum : Z;
  offset : Z
}.

Definition indexEntrySize : nat := 6.

(** [byte(z)], the low eight bits, and the value of a byte. *)
Definition byteOf (z : Z) : Byte.byte :=
  default Byte.x00 (Byte.of_N (Z.to_N (z mod 256))).

Definition valOf (x : Byte.byte) : Z := Z.of_N (Byte.to_N x).

(** A Go slice of bytes: the elements below its length, and the bytes of its
    backing array between its length and its capacity. *)
Record slice : Type := mkSlice {
  elems : list Byte.byte;
  spare : list Byte.byte
}.

Definition cap (s : slice) : nat := (length (elems s) + length (spare s))%nat.

(** [s[lo:hi]]: the bound is the capacity, not the length. *)
Definition reslice (s : slice) (lo hi : nat) : outcome slice :=
  if ((lo <=? hi) && (hi <=? cap s))%nat then
    Done (mkSlice (take (hi - lo) (drop lo (elems s ++ spare s)))
                  (drop hi (elems s ++ spare s)))
  else Panic.

(** [s[lo:]]: the upper bound is the length. *)
Definition resliceFrom (s : slice) (lo : nat) : outcome slice :=
  if (lo <=? length (elems s))%nat then
    Done (mkSlice (drop lo (elems s)) (spare s))
  else Panic.

(** [binary.BigEndian.Uint16] and [Uint32], on the elements of a slice. *)
Definition Uint16 (x : list Byte.byte) : outcome Z :=
  match x with
  | b0 :: b1 :: _ => Done (Z.lor (valOf b1) (Z.shiftl (valOf b0) 8))
  | _ => Panic
  end.

Definition Uint32 (x : list Byte.byte) : outcome Z :=
  match x with
  | b0 :: b1 :: b2 :: b3 :: _ =>
    Done (Z.lor (Z.lor (Z.lor (valOf b3) (Z.shiftl (valOf b2) 8))
                       (Z.shiftl (valOf b1) 16))
                (Z.shiftl (valOf b0) 24))
  | _ => Panic
  end.

(** [binary.BigEndian.PutUint16(out[i:], v)] and [PutUint32(out[i:], v)], on
    the elements of [out]. *)
Definition PutUint16 (x : list Byte.byte) (i : nat) (v : Z)
  : outcome (list Byte.byte) :=
  if (i + 2 <=? length x)%nat then
    Done (<[S i := byteOf v]> (<[i := byteOf (Z.shiftr v 8)]> x))
  else Panic.

Definition PutUint32 (x : list Byte.byte) (i : nat) (v : Z)
  : outcome (list Byte.byte) :=
  if (i + 4 <=? length x)%nat then
    Done (<[S (S (S i)) := byteOf v]>
          (<[S (S i) := byteOf (Z.shiftr v 8)]>
           (<[S i := byteOf (Z.shiftr v 16)]>
            (<[i := byteOf (Z.shiftr v 24)]> x))))
  else Panic.

(** [unmarshalBinary]. *)
Definition unmarshalBinary (s : slice) : outcome indexEntry :=
  s1 ← reslice s 0 2;
  f ← Uint16 (elems s1);
  s2 ← reslice s 2 6;
  o ← Uint32 (elems s2);
  Done (mkIndexEntry f o).

Section Append.
(** The bytes of spare capacity a slice of the given capacity gets when it
    is grown to hold the given number of elements. *)
Variable grow : nat -> nat -> nat.

(** The built-in [append(s, xs...)]: in place when the capacity allows. *)
Definition goAppend (s : slice) (xs : list Byte.byte) : slice :=
  if (length xs <=? length (spare s))%nat then
    mkSlice (elems s ++ xs) (drop (length xs) (spare s))
  else
    mkSlice (elems s ++ xs)
            (replicate (grow (cap s) (length (elems s) + length xs)) Byte.x00).

(** [append]: [uint16(i.filenum)] keeps the low sixteen bits. *)
Definition append (e : indexEntry) (s : slice) : outcome slice :=
  let start := length (elems s) in
  let out := goAppend s (replicate indexEntrySize Byte.x00) in
  x1 ← PutUint16 (elems out) start (filenum e mod 2 ^ 16);
  x2 ← PutUint32 x1 (start + 2) (offset e);
  Done (mkSlice x2 (spare out)).
End Append.

(** [bounds]. *)
Definition bounds (i end_ : indexEntry) : Z * Z * Z :=
  if decide (filenum i <> filenum end_) then (0, offset end_, filenum end_)
  else (offset i, offset end_, filenum end_).

(** The six bytes of an entry. *)
Definition encoded (e : indexEntry) : list Byte.byte :=
  [byteOf (Z.shiftr (filenum e mod 2 ^ 16) 8); byteOf (filenum e mod 2 ^ 16);
   byteOf (Z.shiftr (offset e) 24); byteOf (Z.shiftr (offset e) 16);
   byteOf (Z.shiftr (offset e) 8); byteOf (offset e)].

End FreezerIndex.

(** * cmd/ethemu/main.go: starting the nodes and connecting the peers *)

Module Wiring.
Import emu.

(** [nodes[node.Address] = stack], for every entry of the roster: the
    addresses under which a started node is kept. *)
Fixpoint handles (iter : list (N * Node)) (nodes : gset N) : gset N :=
  match iter with
  | [] => nodes
  | (_, node) :: rest => handles rest ({[Address node]} ∪ nodes)
  end.

(** A call [nodes[dialer].Server().AddPeer(nodes[dialed].Server().Self())]. *)
Record Dial : Type := mkDial {
  dialer : N;
  dialed : N
}.

#[export] Instance Dial_eq_dec : EqDecision Dial.
Proof. solve_decision. Defined.

(** [for _, peer := range node.Peers { ... }]: [Server] is called on the
    handle the map gives, and the map gives nil for an address it does not
    hold. *)
Fixpoint dialPeers (nodes : gset N) (self : N) (peers : list N)
  : outcome (list Dial) :=
  match peers with
  | [] => Done []
  | peer :: rest =>
    if decide (self ∈ nodes) then
      if decide (peer ∈ nodes) then
        ds ← dialPeers nodes self rest;
        Done (mkDial self peer :: ds)
      else Panic
    else Panic
  end.

(** [for _, node := range emu.Global.Nodes { ... }]. *)
Fixpoint wire (nodes : gset N) (iter : list (N * Node))
  : outcome (list Dial) :=
  match iter with
  | [] => Done []
  | (_, node) :: rest =>
    ds ← dialPeers nodes (Address node) (Peers node);
    ds' ← wire nodes rest;
    Done (ds ++ ds')
  end.

(** The two loops of [ethemu], each ranging over the roster in an order of
    its own. *)
Definition connect (iter1 iter2 : list (N * Node)) : outcome (list Dial) :=
  wire (handles iter1 ∅) iter2.

End Wiring.

(** * p2p/tracker: expiring the pending requests *)

Module Tracker.

(** Instants and durations are in nanoseconds.  The [expire] marker of a
    request is the element of the list that holds its id. *)
Record request : Type := mkRequest {
  peer : string;
  version : Z;
  reqCode : Z;
  resCode : Z;
  time : Z
}.

(** [wake] is nil, or the timer that calls [clean] after so many
    nanoseconds. *)
Record Tracker : Type := mkTracker {
  protocol : string;
  timeout : Z;
  pending : gmap Z request;
  expire : list Z;
  wake : option Z
}.

Definition New (protocol : string) (timeout : Z) : Tracker :=
  mkTracker protocol timeout ∅ [] None.

(** [t.Sub(u)]: a [time.Duration] saturates. *)
Definition Sub (t u : Z) : Z := Z.max (- two63) (Z.min (two63 - 1) (t - u)).

(** [time.Since(t)] and [time.Until(t)] when the clock reads [now]. *)
Definition Since (now t : Z) : Z := Sub now t.
Definition Until (now t : Z) : Z := Sub t now.

(** The loop of [clean]: [clock k] is what the clock reads the [k]-th time
    it is asked.  The map gives nil for an id it does not hold, and
    [req.time] dereferences it. *)
Fixpoint expireLoop (clock : nat -> Z) (k : nat) (timeout : Z)
    (pending : gmap Z request) (expire : list Z)
  : outcome (gmap Z request * list Z * nat) :=
  match expire with
  | [] => Done (pending, [], k)
  | id :: rest =>
    match pending !! id with
    | None => Panic
    | Some req =>
      if Since (clock k) (time req)
           <? to_int (timeout + 5 * Continuous.Millisecond)
      then Done (pending, expire, S k)
      else expireLoop clock (S k) timeout (delete id pending) rest
    end
  end.

(** [schedule], the clock reading [now]. *)
Definition schedule (now : Z) (t : Tracker) : outcome Tracker :=
  match expire t with
  | [] => Done (mkTracker (protocol t) (timeout t) (pending t) (expire t) None)
  | id :: _ =>
    match pending t !! id with
    | None => Panic
    | Some req =>
      Done (mkTracker (protocol t) (timeout t) (pending t) (expire t)
              (Some (Until now (time req + timeout t))))
    end
  end.

Definition clean (clock : nat -> Z) (t : Tracker) : outcome Tracker :=
  st ← expireLoop clock 0 (timeout t) (pending t) (expire t);
  schedule (clock st.2)
    (mkTracker (protocol t) (timeout t) st.1.1 st.1.2 (wake t)).

(** What the tracker keeps between calls: the expiration list holds the ids
    of the pending requests, each once. *)
Definition tracked (t : Tracker) : Prop :=
  NoDup (expire t) /\
  forall id, id ∈ expire t <-> is_Some (pending t !! id).

(** Sample data: two requests made at 0 and at 40 ms, and a timeout of
    20 ms. *)
Definition sampleTracker : Tracker :=
  mkTracker "eth" 20000000
    (<[7 := mkRequest "a" 66 3 4 0]>
     (<[9 := mkRequest "b" 66 5 6 40000000]> ∅))
    [7; 9] None.

End Tracker.

(** * Part II: properties *)

Section IntnFacts.

Lemma Intn_range n raw j : Intn n raw = Some j -> 0 <= j < n.
Proof.
  unfold Intn. destruct (Z.leb_spec n 0); [discriminate|].
  intros [= <-]. apply Z.mod_pos_bound. lia.
Qed.

Lemma Intn_panics n raw : n <= 0 -> Intn n raw = None.
Proof. unfold Intn. intros H. destruct (Z.leb_spec n 0); [reflexivity|lia]. Qed.

Lemma Intn_some n raw : 0 < n -> Intn n raw = Some (raw mod n).
Proof. unfold Intn. intros H. destruct (Z.leb_spec n 0); [lia|reflexivity]. Qed.

End IntnFacts.

(** ** Node slices *)

Section SliceFacts.
Import emu.

Lemma addrAt_inj nodes p q :
  NoDup (Address <$> nodes) ->
  (p < length nodes)%nat -> (q < length nodes)%nat ->
  addrAt nodes p = addrAt nodes q -> p = q.
Proof.
  intros Hnd Hp Hq. unfold addrAt.
  destruct (lookup_lt_is_Some_2 nodes p Hp) as [x Hx].
  destruct (lookup_lt_is_Some_2 nodes q Hq) as [y Hy].
  rewrite Hx, Hy. simpl. intros Heq.
  eapply NoDup_lookup; [exact Hnd| |].
  - rewrite list_lookup_fmap, Hx. reflexivity.
  - rewrite list_lookup_fmap, Hy. simpl. by rewrite Heq.
Qed.

Lemma peersAt_fresh nodes k :
  Forall (fun nd => Peers nd = []) nodes -> peersAt nodes k = [].
Proof.
  intros H. unfold peersAt. destruct (nodes !! k) as [nd|] eqn:Hk; [|done].
  simpl. by apply (Forall_lookup_1 _ _ _ _ H Hk).
Qed.

End SliceFacts.

(** ** The run descriptor store *)

Module emuFacts.
Import emu.

Lemma overlay_self d : overlay d d = d.
Proof.
  destruct d as [p mi ma [m|] l b]; unfold overlay, roster; simpl; [|done].
  f_equal. f_equal. apply (idemp (∪)).
Qed.

Lemma overlay_zero d : overlay d zeroConfig = d.
Proof.
  destruct d as [p mi ma [m|] l b]; unfold overlay, roster; simpl; [|done].
  f_equal. f_equal. apply (right_id ∅ (∪)).
Qed.

Lemma undigits_digits p : undigits (digits p) = Some p.
Proof. induction p as [p IH|p IH|]; simpl; by rewrite ?IH. Qed.

Lemma digits_roundtrip d b g :
  digitsMarshal d = inl b -> digitsUnmarshal b g = (None, overlay d g).
Proof.
  intros [= <-]. unfold digitsUnmarshal.
  rewrite undigits_digits. simpl. by rewrite decode_encode.
Qed.

Section StoreFacts.

Variable Join : string -> string -> string.
Variable MarshalIndent : Config -> list Byte.byte + error.
Variable Unmarshal : list Byte.byte -> Config -> option error * Config.

Lemma StoreConfig_ok dataDir fs d st' :
  StoreConfig Join MarshalIndent dataDir (fs, d) = (None, st') ->
  exists b, MarshalIndent d = inl b /\
    st' = (mkFS (<[Join dataDir CONFIG_JSON := b]> (files fs)) (refused fs), d).
Proof.
  unfold StoreConfig, WriteFile. simpl.
  destruct (MarshalIndent d) as [b|e]; [|done].
  destruct (decide (Join dataDir CONFIG_JSON ∈ refused fs)); simpl; [done|].
  intros [= <-]. by exists b.
Qed.

(** C5. With [encoding/json] round-tripping values of type [Config] (its
    documented behaviour, [overlay]): once [StoreConfig] has succeeded on a
    descriptor [d], [LoadConfig] from the same directory succeeds and leaves
    [Global] equal to [d], both in the storing process and in a fresh process
    (whose [Global] is the zero value); and [LoadConfig] from a directory that
    holds no config file fails with the not-exist error. *)
Theorem LoadConfig_after_StoreConfig dataDir fs d st' :
  (forall c b g,
      MarshalIndent c = inl b -> Unmarshal b g = (None, overlay c g)) ->
  StoreConfig Join MarshalIndent dataDir (fs, d) = (None, st') ->
  st'.2 = d /\
  LoadConfig Join Unmarshal dataDir st' = (None, (st'.1, d)) /\
  LoadConfig Join Unmarshal dataDir (st'.1, zeroConfig)
    = (None, (st'.1, d)) /\
  forall fs0 g, files fs0 !! Join dataDir CONFIG_JSON = None ->
    LoadConfig Join Unmarshal dataDir (fs0, g) =
      (Some (ErrNotExist (Join dataDir CONFIG_JSON)), (fs0, g)).
Proof.
  intros Hjson Hst.
  apply StoreConfig_ok in Hst as (b & Hb & ->). simpl.
  split; [done|].
  unfold LoadConfig, ReadFile. simpl. rewrite lookup_insert_eq.
  rewrite !(Hjson d b _ Hb). simpl.
  rewrite overlay_self, overlay_zero.
  split; [done|]. split; [done|].
  intros fs0 g Hmiss. by rewrite Hmiss.
Qed.

(** C10. When the config file is absent from the data directory,
    [LoadConfig] returns an error, the one [os.ReadFile] gave, and leaves
    [Global] (and the files) exactly as they were, whatever [Global] held. *)
Theorem LoadConfig_absent_keeps_Global dataDir fs g :
  files fs !! Join dataDir CONFIG_JSON = None ->
  LoadConfig Join Unmarshal dataDir (fs, g)
    = (Some (ErrNotExist (Join dataDir CONFIG_JSON)), (fs, g)).
Proof. intros H. unfold LoadConfig, ReadFile. simpl. by rewrite H. Qed.

End StoreFacts.

Lemma LoadConfig_after_StoreConfig_witness :
  let st' := (mkFS (<[digitsJoin "data" CONFIG_JSON :=
                        digits (encode sampleConfig)]> ∅) ∅, sampleConfig) in
  st'.2 = sampleConfig /\
  LoadConfig digitsJoin digitsUnmarshal "data" st'
    = (None, (st'.1, sampleConfig)) /\
  LoadConfig digitsJoin digitsUnmarshal "data" (st'.1, zeroConfig)
    = (None, (st'.1, sampleConfig)) /\
  forall fs0 g, files fs0 !! digitsJoin "data" CONFIG_JSON = None ->
    LoadConfig digitsJoin digitsUnmarshal "data" (fs0, g) =
      (Some (ErrNotExist (digitsJoin "data" CONFIG_JSON)), (fs0, g)).
Proof.
  apply (LoadConfig_after_StoreConfig digitsJoin digitsMarshal digitsUnmarshal
           "data" emptyFS sampleConfig).
  - apply digits_roundtrip.
  - reflexivity.
Defined.

Lemma LoadConfig_absent_keeps_Global_witness :
  LoadConfig digitsJoin digitsUnmarshal "data" (emptyFS, sampleConfig)
    = (Some (ErrNotExist (digitsJoin "data" CONFIG_JSON)),
       (emptyFS, sampleConfig)).
Proof.
  apply (LoadConfig_absent_keeps_Global digitsJoin digitsUnmarshal "data"
           emptyFS sampleConfig).
  reflexivity.
Defined.

End emuFacts.

(** ** The degree-bounded policy *)

Module GenDegreeFacts.
Import emu GenDegree.

Lemma wf_replicate n : wf n (replicate n ∅).
Proof.
  split; [apply length_replicate|].
  intros i s Hi j Hj. apply lookup_replicate in Hi as [-> _]. set_solver.
Qed.

Lemma wf_add_edge n peers i j pi_ pj :
  wf n peers -> j <> i ->
  peers !! i = Some pi_ -> peers !! j = Some pj ->
  wf n (<[j := {[i]} ∪ pj]> (<[i := {[j]} ∪ pi_]> peers)).
Proof.
  intros [Hlen Hwf] Hne Hi Hj.
  assert (Hli : (i < length peers)%nat) by (eapply lookup_lt_Some; eauto).
  assert (Hlj : (j < length peers)%nat) by (eapply lookup_lt_Some; eauto).
  split; [by rewrite !length_insert|].
  intros k s Hk x Hx.
  destruct (decide (k = j)) as [->|Hkj].
  - rewrite list_lookup_insert_eq in Hk by (by rewrite length_insert).
    injection Hk as <-.
    apply elem_of_union in Hx as [Hx|Hx].
    + apply elem_of_singleton in Hx as ->.
      split; [lia|]. split; [congruence|].
      exists ({[j]} ∪ pi_). split; [|in_edge].
      rewrite list_lookup_insert_ne by done.
      by rewrite list_lookup_insert_eq.
    + destruct (Hwf j pj Hj x Hx) as (Hxn & Hxj & t & Ht & Hjt).
      split; [done|]. split; [done|].
      destruct (decide (x = i)) as [->|Hxi].
      * exists ({[j]} ∪ pi_). split; [|in_edge].
        rewrite list_lookup_insert_ne by done.
        by rewrite list_lookup_insert_eq.
      * exists t. split; [|done].
        by rewrite !list_lookup_insert_ne by done.
  - rewrite list_lookup_insert_ne in Hk by done.
    destruct (decide (k = i)) as [->|Hki].
    + rewrite list_lookup_insert_eq in Hk by done.
      injection Hk as <-.
      apply elem_of_union in Hx as [Hx|Hx].
      * apply elem_of_singleton in Hx as ->.
        split; [lia|]. split; [done|].
        exists ({[i]} ∪ pj). split; [|in_edge].
        rewrite list_lookup_insert_eq; [done|by rewrite length_insert].
      * destruct (Hwf i pi_ Hi x Hx) as (Hxn & Hxi & t & Ht & Hit).
        split; [done|]. split; [done|].
        destruct (decide (x = j)) as [->|Hxj].
        -- exists ({[i]} ∪ pj). split; [|in_edge].
           rewrite list_lookup_insert_eq; [done|by rewrite length_insert].
        -- exists t. split; [|done].
           by rewrite !list_lookup_insert_ne by done.
    + rewrite list_lookup_insert_ne in Hk by done.
      destruct (Hwf k s Hk x Hx) as (Hxn & Hxk & t & Ht & Hkt).
      split; [done|]. split; [done|].
      destruct (decide (x = j)) as [->|Hxj].
      * exists ({[i]} ∪ pj). split.
        -- rewrite list_lookup_insert_eq; [done|by rewrite length_insert].
        -- in_edge.
      * rewrite list_lookup_insert_ne by done.
        destruct (decide (x = i)) as [->|Hxi].
        -- exists ({[j]} ∪ pi_). split.
           ++ by rewrite list_lookup_insert_eq.
           ++ in_edge.
        -- exists t. split; [|done]. by rewrite list_lookup_insert_ne.
Qed.

Lemma fill_wf n minPeer maxPeer i rnd : forall peers peers' rnd',
  wf n peers ->
  fill n minPeer maxPeer i rnd peers = Done (peers', rnd') ->
  wf n peers'.
Proof.
  induction rnd as [|raw rnd IH]; intros peers peers' rnd' Hwf; simpl.
  - destruct (peers !! i) as [pi_|]; [|done].
    destruct (Cardinality pi_ <? minPeer); [done|]. by intros [= <- _].
  - destruct (peers !! i) as [pi_|] eqn:Hi; [|done].
    destruct (Cardinality pi_ <? minPeer); [|by intros [= <- _]].
    destruct (Intn (Z.of_nat n) raw) as [jz|]; [|done].
    destruct (decide (Z.to_nat jz = i)) as [|Hne]; [by apply IH|].
    destruct (peers !! Z.to_nat jz) as [pj|] eqn:Hj; [|done].
    destruct (maxPeer <=? Cardinality pj); [by apply IH|].
    apply IH. by apply wf_add_edge.
Qed.

Lemma pass_wf n minPeer maxPeer is_ : forall rnd peers peers' rnd',
  wf n peers ->
  pass n minPeer maxPeer is_ rnd peers = Done (peers', rnd') ->
  wf n peers'.
Proof.
  induction is_ as [|i is_ IH]; intros rnd peers peers' rnd' Hwf; simpl.
  - by intros [= <- _].
  - destruct (fill n minPeer maxPeer i rnd peers) as [[p1 r1]| |] eqn:Hf; [|done..].
    simpl. apply IH. eapply fill_wf; eauto.
Qed.

Lemma generate_wf_check fuel n minPeer maxPeer : forall rnd peers peers',
  wf n peers ->
  generate fuel n minPeer maxPeer rnd peers = Done peers' ->
  wf n peers' /\ check minPeer maxPeer peers' = true.
Proof.
  induction fuel as [|fuel IH]; intros rnd peers peers' Hwf; simpl.
  - destruct (check minPeer maxPeer peers) eqn:Hc; [|done].
    by intros [= <-].
  - destruct (check minPeer maxPeer peers) eqn:Hc; [by intros [= <-]|].
    destruct (pass n minPeer maxPeer (seq 0 n) rnd peers) as [[p1 r1]| |] eqn:Hp; [|done..].
    simpl. apply IH. eapply pass_wf; eauto.
Qed.

Lemma check_spec minPeer maxPeer peers :
  check minPeer maxPeer peers = true <->
  forall i s, peers !! i = Some s -> minPeer <= Cardinality s <= maxPeer.
Proof.
  unfold check. rewrite forallb_forall. split.
  - intros H i s Hi.
    assert (Hin : In s peers) by (apply list_elem_of_In; eapply list_elem_of_lookup_2; eauto).
    specialize (H s Hin). apply negb_true_iff, orb_false_iff in H as [H1 H2].
    apply Z.ltb_ge in H1, H2. lia.
  - intros H s Hin. apply list_elem_of_In, list_elem_of_lookup in Hin as [i Hi].
    specialize (H i s Hi). apply negb_true_iff, orb_false_iff.
    split; apply Z.ltb_ge; lia.
Qed.

Lemma appendPeers_Done nodes ps : forall acc r,
  appendPeers nodes ps acc = Done r ->
  exists nds, Forall2 (fun p nd => nodes !! p = Some nd) ps nds /\
              r = acc ++ (Address <$> nds).
Proof.
  induction ps as [|p ps IH]; intros acc r; simpl.
  - intros [= <-]. exists []. split; [constructor|]. by rewrite app_nil_r.
  - destruct (nodes !! p) as [nd|] eqn:Hp; [|done].
    intros H. apply IH in H as (nds & Hall & ->).
    exists (nd :: nds). split; [by constructor|].
    by rewrite <- app_assoc.
Qed.

Lemma assign_Done Iter nodes todo : forall out,
  assign Iter nodes todo = Done out ->
  Forall2 (assigned Iter nodes) todo out.
Proof.
  induction todo as [|[nd s] todo IH]; intros out; simpl.
  - intros [= <-]. constructor.
  - destruct (appendPeers nodes (Iter s) (Peers nd)) as [ps| |] eqn:Ha; [|done..].
    simpl. destruct (assign Iter nodes todo) as [rest| |] eqn:Hr; [|done..].
    simpl. intros [= <-]. constructor; [|by apply IH].
    apply appendPeers_Done in Ha as (nds & Hall & ->). by exists nds.
Qed.

Lemma Forall2_addrAt nodes ps nds :
  Forall2 (fun p x => nodes !! p = Some x) ps nds ->
  Address <$> nds = addrAt nodes <$> ps.
Proof.
  induction 1 as [|p x ps nds Hp _ IH]; [done|].
  rewrite !fmap_cons, IH. f_equal. unfold addrAt. by rewrite Hp.
Qed.

(** The node written at index [i] keeps its address and lists the addresses
    of the members of [peers[i]]. *)
Lemma assign_lookup Iter nodes peers nodes' i a :
  length peers = length nodes ->
  Forall (fun nd => Peers nd = []) nodes ->
  assign Iter nodes (zip nodes peers) = Done nodes' ->
  nodes' !! i = Some a ->
  exists nd s, nodes !! i = Some nd /\ peers !! i = Some s /\
    Address a = Address nd /\ Peers a = addrAt nodes <$> Iter s.
Proof.
  intros Hlen Hfresh Has Hi.
  apply assign_Done in Has.
  destruct (Forall2_lookup_r _ _ _ _ _ Has Hi) as ([nd s] & Hz & nds & Hall & ->).
  apply lookup_zip_with_Some in Hz as (nd' & s' & [= <- <-] & Hnd & Hs).
  exists nd, s. split; [done|]. split; [done|]. split; [done|]. simpl in *.
  rewrite (Forall2_addrAt _ _ _ Hall).
  rewrite Forall_lookup in Hfresh. by rewrite (Hfresh _ _ Hnd).
Qed.

Lemma assign_length Iter nodes peers nodes' :
  length peers = length nodes ->
  assign Iter nodes (zip nodes peers) = Done nodes' ->
  length nodes' = length nodes.
Proof.
  intros Hlen Has. apply assign_Done, Forall2_length in Has.
  rewrite length_zip_with in Has. lia.
Qed.

Lemma setPeers_inv Iter fuel rnd minPeer maxPeer nodes nodes' :
  setPeers Iter fuel rnd minPeer maxPeer nodes = Done nodes' ->
  exists peers,
    wf (length nodes) peers /\ check minPeer maxPeer peers = true /\
    assign Iter nodes (zip nodes peers) = Done nodes'.
Proof.
  unfold setPeers.
  destruct (generate fuel (length nodes) minPeer maxPeer rnd
              (replicate (length nodes) ∅)) as [peers| |] eqn:Hg; [|done..].
  simpl. intros Has. exists peers.
  apply generate_wf_check in Hg as [Hwf Hc]; [done|apply wf_replicate].
Qed.

(** C3. Whenever the degree-bounded [setPeers] returns, on freshly created
    nodes with pairwise distinct addresses: the nodes keep their addresses,
    every node's peer list has between [minPeer] and [maxPeer] entries, holds
    no entry twice, does not hold the node's own address, and whenever node
    [a] lists the address of node [b], node [b] lists the address of [a]. *)
Theorem setPeers_degree_symmetric Iter fuel rnd minPeer maxPeer nodes nodes' :
  (forall s, Iter s ≡ₚ elements s) ->
  NoDup (Address <$> nodes) ->
  Forall (fun nd => Peers nd = []) nodes ->
  setPeers Iter fuel rnd minPeer maxPeer nodes = Done nodes' ->
  length nodes' = length nodes /\
  forall i a, nodes' !! i = Some a ->
    Address <$> (nodes !! i) = Some (Address a) /\
    minPeer <= Z.of_nat (length (Peers a)) <= maxPeer /\
    NoDup (Peers a) /\
    (Address a ∉ Peers a) /\
    forall j b, nodes' !! j = Some b ->
      Address b ∈ Peers a -> Address a ∈ Peers b.
Proof.
  intros HIter Hnd Hfresh Hset.
  apply setPeers_inv in Hset as (peers & [Hlen Hwf] & Hc & Has).
  split; [by eapply assign_length|].
  intros i a Hi.
  destruct (assign_lookup _ _ _ _ _ _ Hlen Hfresh Has Hi)
    as (nd & s & Hnodes & Hpeers & Haddr & HP).
  assert (Hin : forall x, x ∈ Iter s <-> x ∈ s).
  { intros x. rewrite (HIter s). apply elem_of_elements. }
  assert (Haddr_i : Address a = addrAt nodes i).
  { unfold addrAt. by rewrite Hnodes. }
  assert (Hi_lt : (i < length nodes)%nat) by (eapply lookup_lt_Some; eauto).
  split; [by rewrite Hnodes, Haddr|].
  split.
  { rewrite HP, length_fmap, (HIter s).
    apply check_spec with (i := i) (s := s) in Hc; [|done].
    unfold Cardinality in Hc. by replace (length (elements s)) with (size s). }
  split.
  { rewrite HP. apply NoDup_fmap_2_strong.
    - intros p q Hp Hq. apply Hin, (Hwf i s Hpeers) in Hp as (Hp & _).
      apply Hin, (Hwf i s Hpeers) in Hq as (Hq & _).
      by apply addrAt_inj.
    - rewrite (HIter s). apply NoDup_elements. }
  split.
  { rewrite HP, Haddr_i. intros (p & Heq & Hp)%list_elem_of_fmap.
    apply Hin, (Hwf i s Hpeers) in Hp as (Hp & Hne & _).
    apply addrAt_inj in Heq; [congruence|done..]. }
  intros j b Hj Hb.
  destruct (assign_lookup _ _ _ _ _ _ Hlen Hfresh Has Hj)
    as (nd' & t & Hnodes' & Hpeers' & Haddr' & HP').
  assert (Hj_lt : (j < length nodes)%nat) by (eapply lookup_lt_Some; eauto).
  assert (Haddr_j : Address b = addrAt nodes j).
  { unfold addrAt. by rewrite Hnodes'. }
  rewrite HP in Hb. apply list_elem_of_fmap in Hb as (p & Heq & Hp).
  apply Hin in Hp. destruct (Hwf i s Hpeers p Hp) as (Hp_lt & _ & t' & Ht' & Hit').
  rewrite Haddr_j in Heq. apply addrAt_inj in Heq; [|done..]. subst p.
  assert (t' = t) as -> by congruence.
  rewrite HP', Haddr_i. apply list_elem_of_fmap. exists i. split; [done|].
  rewrite (HIter t). by apply elem_of_elements.
Qed.

Lemma setPeers_degree_symmetric_witness :
  length roster3_peered = length roster3 /\
  forall i a, roster3_peered !! i = Some a ->
    Address <$> (roster3 !! i) = Some (Address a) /\
    1 <= Z.of_nat (length (Peers a)) <= 2 /\
    NoDup (Peers a) /\
    (Address a ∉ Peers a) /\
    forall j b, roster3_peered !! j = Some b ->
      Address b ∈ Peers a -> Address a ∈ Peers b.
Proof.
  apply (setPeers_degree_symmetric elements 5%nat [1; 0; 2; 1; 0] 1 2 roster3).
  - intros s. reflexivity.
  - apply (bool_decide_unpack _). vm_compute. exact I.
  - repeat constructor.
  - vm_compute. reflexivity.
Defined.

(** An index set of a well-formed state misses its own index, so it has at
    most [n - 1] members. *)
Lemma wf_size n peers i s :
  wf n peers -> peers !! i = Some s -> (size s <= n - 1)%nat.
Proof.
  intros [Hlen Hwf] Hi.
  assert (Hlt : (i < n)%nat) by (rewrite <- Hlen; eapply lookup_lt_Some; eauto).
  assert (Hsub : s ⊆ list_to_set (seq 0 n) ∖ {[i]}).
  { intros j Hj. destruct (Hwf i s Hi j Hj) as (Hjn & Hji & _).
    apply elem_of_difference. split.
    - apply elem_of_list_to_set, elem_of_seq. lia.
    - by rewrite elem_of_singleton. }
  apply subseteq_size in Hsub.
  rewrite size_difference in Hsub.
  - rewrite size_list_to_set, length_seq, size_singleton in Hsub
      by apply NoDup_seq. done.
  - apply singleton_subseteq_l, elem_of_list_to_set, elem_of_seq. lia.
Qed.

Lemma infeasible_never_returns Iter minPeer maxPeer nodes :
  nodes <> [] ->
  Z.of_nat (length nodes) - 1 < minPeer \/ maxPeer < minPeer ->
  ~ terminates Iter minPeer maxPeer nodes.
Proof.
  intros Hne Hbad (fuel & rnd & nodes' & Hset).
  apply setPeers_inv in Hset as (peers & Hwf & Hc & _).
  assert (Hpos : (0 < length nodes)%nat) by (destruct nodes; [done|simpl; lia]).
  destruct (lookup_lt_is_Some_2 peers 0%nat) as [s Hs].
  { by destruct Hwf as [-> _]. }
  pose proof (wf_size _ _ _ _ Hwf Hs) as Hsz.
  apply check_spec with (i := 0%nat) (s := s) in Hc; [|done].
  unfold Cardinality in Hc. lia.
Qed.

(** C4 (as amended). [setPeers] has no iteration cap: it returns only once
    [check] holds.  On a non-empty roster with [minPeer > N - 1], or with
    [maxPeer < minPeer], no amount of fuel and no entropy makes it return. *)
Theorem setPeers_no_iteration_cap Iter minPeer maxPeer nodes :
  nodes <> [] ->
  Z.of_nat (length nodes) - 1 < minPeer \/ maxPeer < minPeer ->
  forall fuel rnd nodes',
    setPeers Iter fuel rnd minPeer maxPeer nodes <> Done nodes'.
Proof.
  intros Hne Hbad fuel rnd nodes' Hset.
  apply (infeasible_never_returns Iter minPeer maxPeer nodes Hne Hbad).
  by exists fuel, rnd, nodes'.
Qed.

Lemma setPeers_no_iteration_cap_witness :
  roster3 <> [] /\
  forall fuel rnd nodes',
    setPeers elements fuel rnd 2 1 roster3 <> Done nodes'.
Proof.
  split; [discriminate|].
  apply (setPeers_no_iteration_cap elements 2 1 roster3); [discriminate|].
  right. lia.
Defined.

(** C4, as stated, fails: with two nodes and [minPeer = 2] the generator
    never returns, whatever the entropy. *)
Lemma setPeers_cap_counterexample : ~ terminates elements 2 2 roster2.
Proof.
  apply infeasible_never_returns; [discriminate|]. left. simpl. lia.
Qed.

End GenDegreeFacts.

(** ** The density-probability policy *)

Module GenDensityFacts.
Import emu GenDensity.

Lemma appendPeer_Done nodes i a nd :
  nodes !! i = Some nd ->
  exists nodes', appendPeer nodes i a = Done nodes' /\
    length nodes' = length nodes /\
    (forall k, addrAt nodes' k = addrAt nodes k) /\
    (forall k, peersAt nodes' k =
               if decide (k = i) then peersAt nodes k ++ [a] else peersAt nodes k).
Proof.
  intros Hi. unfold appendPeer. rewrite Hi. eexists. split; [done|].
  assert (Hlt : (i < length nodes)%nat) by (eapply lookup_lt_Some; eauto).
  split; [by rewrite length_insert|]. split.
  - intros k. unfold addrAt. destruct (decide (k = i)) as [->|Hne].
    + rewrite list_lookup_insert_eq by done. by rewrite Hi.
    + by rewrite list_lookup_insert_ne.
  - intros k. unfold peersAt. destruct (decide (k = i)) as [->|Hne].
    + rewrite list_lookup_insert_eq by done. by rewrite Hi.
    + by rewrite list_lookup_insert_ne.
Qed.

Lemma addressAt_Done nodes i nd :
  nodes !! i = Some nd -> addressAt nodes i = Done (Address nd).
Proof. intros H. unfold addressAt. by rewrite H. Qed.

Lemma pair_unfold peerNum i j raw nodes :
  pair peerNum i j raw nodes =
  if decision peerNum (Z.of_nat (length nodes)) i j raw then
    aj ← addressAt nodes j;
    nodes1 ← appendPeer nodes i aj;
    ai ← addressAt nodes1 i;
    appendPeer nodes1 j ai
  else Done nodes.
Proof.
  unfold pair, randNum, decision, p_ij, getPij.
  rewrite Intn_some by lia. reflexivity.
Qed.

(** The effect of one pair on the peer lists. *)
Lemma pair_Done peerNum i j raw nodes :
  (i < length nodes)%nat -> (j < length nodes)%nat -> i <> j ->
  exists nodes', pair peerNum i j raw nodes = Done nodes' /\
    length nodes' = length nodes /\
    (forall k, addrAt nodes' k = addrAt nodes k) /\
    (forall k x, x ∈ peersAt nodes' k <->
       x ∈ peersAt nodes k \/
       (decision peerNum (Z.of_nat (length nodes)) i j raw = true /\
        linked nodes i j k x)).
Proof.
  intros Hi Hj Hne. rewrite pair_unfold. unfold linked.
  destruct (decision _ _ i j raw).
  - destruct (lookup_lt_is_Some_2 nodes i Hi) as [ni Hni].
    destruct (lookup_lt_is_Some_2 nodes j Hj) as [nj Hnj].
    rewrite (addressAt_Done _ _ _ Hnj). simpl.
    destruct (appendPeer_Done nodes i (Address nj) ni Hni)
      as (nodes1 & -> & Hlen1 & Haddr1 & Hpeers1). simpl.
    destruct (lookup_lt_is_Some_2 nodes1 i) as [ni1 Hni1]; [lia|].
    destruct (lookup_lt_is_Some_2 nodes1 j) as [nj1 Hnj1]; [lia|].
    rewrite (addressAt_Done _ _ _ Hni1). simpl.
    destruct (appendPeer_Done nodes1 j (Address ni1) nj1 Hnj1)
      as (nodes2 & -> & Hlen2 & Haddr2 & Hpeers2).
    exists nodes2. split; [done|]. split; [lia|].
    split; [intros k; by rewrite Haddr2, Haddr1|].
    assert (Hai : Address ni1 = addrAt nodes i).
    { rewrite <- Haddr1. unfold addrAt. by rewrite Hni1. }
    assert (Haj : Address nj = addrAt nodes j).
    { unfold addrAt. by rewrite Hnj. }
    intros k x. rewrite Hpeers2, Hai, Hpeers1, Haj.
    repeat case_decide; subst;
      rewrite ?elem_of_app, ?list_elem_of_singleton; intuition congruence.
  - exists nodes. split; [done|]. split; [done|]. split; [done|].
    intros k x. intuition congruence.
Qed.

Lemma linked_ext nodes nodes1 i j k x :
  (forall p, addrAt nodes1 p = addrAt nodes p) ->
  linked nodes1 i j k x <-> linked nodes i j k x.
Proof. intros H. unfold linked. by rewrite !H. Qed.

Lemma inner_Done peerNum rnd i js : forall pos nodes,
  (i < length nodes)%nat ->
  Forall (fun j => (j < length nodes)%nat /\ i <> j) js ->
  exists nodes',
    inner peerNum rnd i js pos nodes = Done (nodes', (pos + length js)%nat) /\
    length nodes' = length nodes /\
    (forall k, addrAt nodes' k = addrAt nodes k) /\
    (forall k x, x ∈ peersAt nodes' k <->
       x ∈ peersAt nodes k \/
       exists idx j, js !! idx = Some j /\
         decision peerNum (Z.of_nat (length nodes)) i j (rnd (pos + idx)%nat)
           = true /\
         linked nodes i j k x).
Proof.
  induction js as [|j js IH]; intros pos nodes Hi Hjs; simpl.
  - exists nodes. rewrite Nat.add_0_r. split; [done|]. split; [done|].
    split; [done|]. intros k x. split; [by left|].
    intros [H|(idx & j & H & _)]; [done|]. by rewrite lookup_nil in H.
  - apply Forall_cons_1 in Hjs as [[Hj Hne] Hjs].
    destruct (pair_Done peerNum i j (rnd pos) nodes Hi Hj Hne)
      as (nodes1 & -> & Hlen1 & Haddr1 & Hp1). simpl.
    destruct (IH (S pos) nodes1) as (nodes2 & -> & Hlen2 & Haddr2 & Hp2).
    { lia. }
    { by rewrite Hlen1. }
    exists nodes2. split; [do 2 f_equal; lia|]. split; [lia|].
    split; [intros k; by rewrite Haddr2, Haddr1|].
    intros k x. rewrite Hp2, Hp1, Hlen1. split.
    + intros [[H|[Hd Hl]]|(idx & j' & Hidx & Hd & Hl)].
      * by left.
      * right. exists 0%nat, j. rewrite Nat.add_0_r. done.
      * right. exists (S idx), j'. rewrite Nat.add_succ_r.
        split; [done|]. split; [done|]. by apply (linked_ext nodes nodes1).
    + intros [H|(idx & j' & Hidx & Hd & Hl)]; [by left; left|].
      destruct idx as [|idx]; simpl in Hidx.
      * injection Hidx as <-. rewrite Nat.add_0_r in Hd. left. by right.
      * right. exists idx, j'. rewrite Nat.add_succ_r in Hd.
        split; [done|]. split; [done|]. by apply (linked_ext nodes nodes1).
Qed.

(** One row: the pairs [(i, j)] for [j] from [i + 1] to [n - 1], whose draws
    start at [rowStart n i]. *)
Lemma row_Done peerNum rnd i nodes :
  (i < length nodes)%nat ->
  exists nodes',
    inner peerNum rnd i (seq (S i) (length nodes - S i))
          (rowStart (length nodes) i) nodes
      = Done (nodes', rowStart (length nodes) (S i)) /\
    length nodes' = length nodes /\
    (forall k, addrAt nodes' k = addrAt nodes k) /\
    (forall k x, x ∈ peersAt nodes' k <->
       x ∈ peersAt nodes k \/
       exists j, (i < j < length nodes)%nat /\
         connects peerNum rnd (length nodes) i j = true /\
         linked nodes i j k x).
Proof.
  intros Hi.
  destruct (inner_Done peerNum rnd i (seq (S i) (length nodes - S i))
              (rowStart (length nodes) i) nodes Hi)
    as (nodes' & Hin & Hlen & Haddr & Hp).
  { apply Forall_lookup. intros idx j [-> Hidx]%lookup_seq. lia. }
  exists nodes'. rewrite length_seq in Hin.
  split; [exact Hin|]. split; [done|]. split; [done|].
  intros k x. rewrite Hp. unfold connects, drawOf. split.
  - intros [H|(idx & j & [-> Hidx]%lookup_seq & Hd & Hl)]; [by left|].
    right. exists (S i + idx)%nat. split; [lia|]. split; [|done].
    by replace (S i + idx - S i)%nat with idx by lia.
  - intros [H|(j & Hj & Hd & Hl)]; [by left|].
    right. exists (j - S i)%nat, j. split; [|done].
    apply lookup_seq. lia.
Qed.

Lemma outer_Done peerNum rnd m : forall i0 nodes,
  (i0 + m <= length nodes)%nat ->
  exists nodes',
    outer peerNum rnd (length nodes) (seq i0 m) (rowStart (length nodes) i0) nodes
      = Done (nodes', rowStart (length nodes) (i0 + m)) /\
    length nodes' = length nodes /\
    (forall k, addrAt nodes' k = addrAt nodes k) /\
    (forall k x, x ∈ peersAt nodes' k <->
       x ∈ peersAt nodes k \/
       exists i j, (i0 <= i < i0 + m)%nat /\ (i < j < length nodes)%nat /\
         connects peerNum rnd (length nodes) i j = true /\
         linked nodes i j k x).
Proof.
  induction m as [|m IH]; intros i0 nodes Hle; simpl.
  - exists nodes. rewrite Nat.add_0_r. split; [done|]. split; [done|].
    split; [done|]. intros k x. split; [by left|].
    intros [H|(i & j & Hi & _)]; [done|lia].
  - replace (i0 + S m)%nat with (S i0 + m)%nat by lia.
    destruct (row_Done peerNum rnd i0 nodes) as (nodes1 & Hrow & Hlen1 & Haddr1 & Hp1);
      [lia|].
    rewrite Hrow. simpl.
    destruct (IH (S i0) nodes1) as (nodes2 & Hout & Hlen2 & Haddr2 & Hp2); [lia|].
    rewrite Hlen1 in Hout, Hp2. simpl in Hout. rewrite Hout.
    exists nodes2. split; [done|]. split; [lia|].
    split; [intros k; by rewrite Haddr2, Haddr1|].
    intros k x. rewrite Hp2, Hp1. split.
    + intros [[H|(j & Hj & Hd & Hl)]|(i & j & Hi & Hj & Hd & Hl)].
      * by left.
      * right. exists i0, j. split; [lia|done].
      * right. exists i, j. split; [lia|]. split; [done|]. split; [done|].
        by apply (linked_ext nodes nodes1).
    + intros [H|(i & j & Hi & Hj & Hd & Hl)]; [by left; left|].
      destruct (decide (i = i0)) as [->|Hne].
      * left. right. by exists j.
      * right. exists i, j. split; [lia|]. split; [done|]. split; [done|].
        by apply (linked_ext nodes nodes1).
Qed.

(** On rosters of up to 4096 nodes the conversions in [dis] are exact: it is
    the distance [|i - j|]. *)
Lemma dis_exact i j : Z.abs (i - j) <= 4096 -> dis i j = Z.abs (i - j).
Proof.
  intros H. unfold dis.
  assert (Hall : forallb (fun d =>
            (int (PrimFloat.abs (float64 d)) =? d) &&
            (int (PrimFloat.abs (float64 (- d))) =? d))
            (List.map Z.of_nat (seq 0 4097)) = true) by (vm_compute; reflexivity).
  rewrite forallb_forall in Hall.
  assert (Hin : In (Z.abs (i - j)) (List.map Z.of_nat (seq 0 4097))).
  { apply in_map_iff. exists (Z.to_nat (Z.abs (i - j))).
    split; [lia|]. apply in_seq. lia. }
  apply Hall, andb_true_iff in Hin as [H1 H2].
  apply Z.eqb_eq in H1, H2.
  destruct (Z.abs_spec (i - j)) as [[_ Ha]|[_ Ha]].
  - rewrite Ha in H1 |- *. exact H1.
  - rewrite Ha in H2 |- *. by rewrite Z.opp_involutive in H2.
Qed.

Lemma randNum_unit raw :
  exists r, randNum raw = Done r /\
    (0 <=? r)%float = true /\ (r <? 1)%float = true.
Proof.
  unfold randNum. rewrite Intn_some by lia. eexists. split; [done|].
  pose proof (Z.mod_pos_bound raw 100 ltac:(lia)) as Hk.
  assert (Hall : forallb (fun k =>
            (0 <=? float64 k / float64 100)%float &&
            (float64 k / float64 100 <? 1)%float)
            (List.map Z.of_nat (seq 0 100)) = true) by (vm_compute; reflexivity).
  rewrite forallb_forall in Hall.
  specialize (Hall (raw mod 100)).
  apply andb_true_iff, Hall, in_map_iff.
  exists (Z.to_nat (raw mod 100)). split; [lia|]. apply in_seq. lia.
Qed.



End GenDensityFacts.

(** ** The continuous driver's transaction task *)

Module ContinuousFacts.
Import emu Continuous.

Lemma to_int_small z : - two63 <= z < two63 -> to_int z = z.
Proof.
  unfold to_int, two63, two64. intros H.
  rewrite Z.mod_small; lia.
Qed.

Lemma u64_small z : 0 <= z < two64 -> u64 z = z.
Proof. unfold u64. intros H. by rewrite Z.mod_small. Qed.

Lemma pick_elem addrs raw a : pick addrs raw = Done a -> a ∈ addrs.
Proof.
  unfold pick. destruct (Intn _ raw) as [k|]; [|done].
  destruct (addrs !! Z.to_nat k) as [b|] eqn:Hk; [|done].
  intros [= <-]. by eapply list_elem_of_lookup_2.
Qed.

Lemma pick_single a raw : pick [a] raw = Done a.
Proof.
  unfold pick. change (Z.of_nat (length [a])) with 1.
  rewrite Intn_some by lia. by rewrite Z.mod_1_r.
Qed.

Lemma resample_distinct addrs from_ rnd : forall to_ to' rnd',
  resample addrs from_ to_ rnd = Done (to', rnd') ->
  to' <> from_ /\ (to' = to_ \/ to' ∈ addrs).
Proof.
  induction rnd as [|raw rnd IH]; intros to_ to' rnd'; simpl.
  - destruct (decide (from_ = to_)); [done|].
    intros [= <- _]. split; [congruence|by left].
  - destruct (decide (from_ = to_)).
    + destruct (pick addrs raw) as [t| |] eqn:Hp; [|done..]. simpl.
      intros H. apply IH in H as [Hne [->|Hin]]; (split; [done|right]); [|done].
      by eapply pick_elem.
    + intros [= <- _]. split; [congruence|by left].
Qed.

(** With a single address to draw from, the destination never differs from
    the source. *)
Lemma resample_single a rnd : resample [a] a a rnd = OutOfFuel.
Proof.
  induction rnd as [|raw rnd IH]; simpl.
  - by rewrite decide_True.
  - rewrite decide_True by done. rewrite pick_single. simpl. exact IH.
Qed.

Lemma iteration_sound sleepMin sleepMax addrs rnd tx rnd' :
  iteration sleepMin sleepMax addrs rnd = Done (tx, rnd') ->
  from tx ∈ addrs /\ to tx ∈ addrs /\ from tx <> to tx.
Proof.
  unfold iteration. destruct rnd as [|raw rnd1]; [done|].
  destruct (pick addrs raw) as [f| |] eqn:Hf; [|done..]. simpl.
  destruct (resample addrs f f rnd1) as [[t rnd2]| |] eqn:Hr; [|done..]. simpl.
  destruct rnd2 as [|raw' rnd3]; [done|].
  destruct (sleepFor sleepMin sleepMax raw') as [d| |]; [|done..]. simpl.
  intros [= <- _]. simpl.
  apply pick_elem in Hf. apply resample_distinct in Hr as [Hne [->|Hin]].
  - done.
  - by repeat split.
Qed.

Lemma txTask_sound fuel sleepMin sleepMax addrs : forall rnd tx,
  tx ∈ (txTask fuel sleepMin sleepMax addrs rnd).1 ->
  from tx ∈ addrs /\ to tx ∈ addrs /\ from tx <> to tx.
Proof.
  induction fuel as [|fuel IH]; intros rnd tx; simpl.
  - by intros ?%elem_of_nil.
  - destruct (iteration sleepMin sleepMax addrs rnd) as [[tx1 rnd']| |] eqn:Hit;
      simpl; [|by intros ?%elem_of_nil..].
    intros [->|Hin]%elem_of_cons; [by eapply iteration_sound|by eapply IH].
Qed.

Lemma nonMiners_elem iter : forall acc a,
  a ∈ nonMiners iter acc <->
  a ∈ acc \/ exists k nd, (k, nd) ∈ iter /\ IsMiner nd = false /\ Address nd = a.
Proof.
  induction iter as [|[k nd] iter IH]; intros acc a; simpl.
  - split; [by left|]. intros [H|(k & nd & H%elem_of_nil & _)]; done.
  - rewrite IH. split.
    + intros [H|(k' & nd' & Hin & Hm & Ha)].
      * destruct (IsMiner nd) eqn:Hm; [by left|].
        apply elem_of_app in H as [H|H]; [by left|].
        apply list_elem_of_singleton in H as ->.
        right. exists k, nd. split; [by left|done].
      * right. exists k', nd'. split; [by right|done].
    + intros [H|(k' & nd' & Hin & Hm & Ha)].
      * left. destruct (IsMiner nd); [done|]. apply elem_of_app. by left.
      * apply elem_of_cons in Hin as [[= -> ->]|Hin].
        -- left. rewrite Hm. apply elem_of_app. right.
           by apply list_elem_of_singleton.
        -- right. by exists k', nd'.
Qed.

Lemma sleepFor_range sleepMin sleepMax raw :
  0 <= sleepMin < sleepMax -> sleepMax <= 9223372036854 ->
  sleepFor sleepMin sleepMax raw
    = Done ((sleepMin + raw mod (sleepMax - sleepMin)) * Millisecond).
Proof.
  intros Hlt Hmax. unfold sleepFor.
  assert (H63 : two63 = 9223372036854775808) by reflexivity.
  assert (H64 : two64 = 18446744073709551616) by reflexivity.
  rewrite u64_small by lia.
  rewrite (to_int_small (sleepMax - sleepMin)) by lia.
  rewrite Intn_some by lia.
  pose proof (Z.mod_pos_bound raw (sleepMax - sleepMin)) as Hr.
  rewrite (to_int_small sleepMin) by lia.
  rewrite (to_int_small (_ + sleepMin)) by lia.
  unfold Millisecond. rewrite to_int_small by lia.
  f_equal. lia.
Qed.

Lemma sleepFor_equal_bounds m raw : sleepFor m m raw = Panic.
Proof.
  unfold sleepFor. rewrite Z.sub_diag. by rewrite Intn_panics.
Qed.

(** C9 (as amended). For [0 <= MinTxInterval < MaxTxInterval] (up to
    9223372036854 ms, so that the nanosecond count fits [int64]) the sleep
    between two submissions is well defined and is a whole number of
    milliseconds of the half-open interval [MinTxInterval, MaxTxInterval):
    every such value can be drawn, and [MaxTxInterval] itself never is. *)
Theorem sleepFor_half_open sleepMin sleepMax :
  0 <= sleepMin < sleepMax -> sleepMax <= 9223372036854 ->
  (forall raw, exists ms,
      sleepFor sleepMin sleepMax raw = Done (ms * Millisecond) /\
      sleepMin <= ms < sleepMax) /\
  (forall ms, sleepMin <= ms < sleepMax ->
      exists raw, sleepFor sleepMin sleepMax raw = Done (ms * Millisecond)).
Proof.
  intros Hlt Hmax. split.
  - intros raw. exists (sleepMin + raw mod (sleepMax - sleepMin)).
    split; [by apply sleepFor_range|].
    pose proof (Z.mod_pos_bound raw (sleepMax - sleepMin)). lia.
  - intros ms Hms. exists (ms - sleepMin).
    rewrite sleepFor_range by done.
    rewrite Z.mod_small by lia. f_equal. lia.
Qed.

Lemma sleepFor_half_open_witness :
  (forall raw, exists ms,
      sleepFor 100 300 raw = Done (ms * Millisecond) /\ 100 <= ms < 300) /\
  (forall ms, 100 <= ms < 300 ->
      exists raw, sleepFor 100 300 raw = Done (ms * Millisecond)).
Proof. apply (sleepFor_half_open 100 300); lia. Defined.

(** C9, as stated, fails: with [MinTxInterval = MaxTxInterval] the draw is
    [rand.Intn(0)], which panics; and with 100 and 300 the sleep is never
    300 ms. *)
Lemma sleepFor_closed_counterexample :
  (forall raw, sleepFor 5 5 raw = Panic) /\
  (forall raw, sleepFor 100 300 raw <> Done (300 * Millisecond)).
Proof.
  split; [apply sleepFor_equal_bounds|].
  intros raw. rewrite sleepFor_range by lia.
  pose proof (Z.mod_pos_bound raw (300 - 100)).
  unfold Millisecond. intros [= H']. lia.
Qed.

Lemma nonMiners_roster c iter a :
  iter ≡ₚ map_to_list (roster c) ->
  (forall k nd, roster c !! k = Some nd -> Address nd = k) ->
  a ∈ nonMiners iter [] <->
  exists nd, roster c !! a = Some nd /\ IsMiner nd = false.
Proof.
  intros Hperm Hkey. rewrite nonMiners_elem. split.
  - intros [H%elem_of_nil|(k & nd & Hin & Hm & Ha)]; [done|].
    rewrite Hperm in Hin. apply elem_of_map_to_list in Hin.
    exists nd. rewrite <- Ha, (Hkey k nd Hin). done.
  - intros (nd & Hnd & Hm). right. exists a, nd.
    split; [|split; [done|by apply Hkey]].
    rewrite Hperm. by apply elem_of_map_to_list.
Qed.

(** C8. In the continuous strategy, over an address-keyed roster: every
    transaction the task submits has a destination different from its source,
    its source is the address of a non-miner node and of no miner, and the
    sender pool holds exactly the addresses of the non-miner nodes. *)
Theorem txTask_sender_not_miner c iter fuel sleepMin sleepMax rnd tx :
  iter ≡ₚ map_to_list (roster c) ->
  (forall k nd, roster c !! k = Some nd -> Address nd = k) ->
  tx ∈ (txTask fuel sleepMin sleepMax (nonMiners iter []) rnd).1 ->
  from tx <> to tx /\
  (exists nd, roster c !! from tx = Some nd /\ IsMiner nd = false) /\
  (forall k nd, roster c !! k = Some nd -> IsMiner nd = true ->
     Address nd <> from tx) /\
  (forall a, a ∈ nonMiners iter [] <->
     exists nd, roster c !! a = Some nd /\ IsMiner nd = false).
Proof.
  intros Hperm Hkey Htx.
  apply txTask_sound in Htx as (Hfrom & _ & Hne).
  apply (nonMiners_roster c iter _ Hperm Hkey) in Hfrom as (nd & Hnd & Hm).
  split; [done|]. split; [by exists nd|]. split.
  - intros k nd' Hk Hm' Heq.
    rewrite (Hkey k nd' Hk) in Heq. subst k. congruence.
  - intros a. by apply nonMiners_roster.
Qed.

Lemma sampleConfig_keyed k nd :
  roster sampleConfig !! k = Some nd -> Address nd = k.
Proof.
  assert (H : map_Forall (fun k nd => Address nd = k) (roster sampleConfig)).
  { apply (bool_decide_unpack _). vm_compute. exact I. }
  apply H.
Qed.

Lemma txTask_sender_not_miner_witness :
  let tx := mkTransfer 13%N 11%N 100000 157000000 in
  let iter := map_to_list (roster sampleConfig) in
  from tx <> to tx /\
  (exists nd, roster sampleConfig !! from tx = Some nd /\ IsMiner nd = false) /\
  (forall k nd, roster sampleConfig !! k = Some nd -> IsMiner nd = true ->
     Address nd <> from tx) /\
  (forall a, a ∈ nonMiners iter [] <->
     exists nd, roster sampleConfig !! a = Some nd /\ IsMiner nd = false).
Proof.
  apply (txTask_sender_not_miner sampleConfig (map_to_list (roster sampleConfig))
           3%nat 100 300 [0; 0; 1; 57; 1; 0; 3]).
  - reflexivity.
  - apply sampleConfig_keyed.
  - vm_compute. apply list_elem_of_here.
Defined.

Lemma txTask_single_sender a fuel sleepMin sleepMax rnd :
  txTask fuel sleepMin sleepMax [a] rnd = ([], Running).
Proof.
  destruct fuel as [|fuel]; [done|]. simpl.
  unfold iteration. destruct rnd as [|raw rnd]; [done|].
  rewrite pick_single. simpl. by rewrite resample_single.
Qed.

Lemma txTask_no_sender fuel sleepMin sleepMax rnd :
  txTask fuel sleepMin sleepMax [] rnd = ([], Running) \/
  txTask fuel sleepMin sleepMax [] rnd = ([], Crashed).
Proof.
  destruct fuel as [|fuel]; [by left|]. simpl.
  destruct rnd as [|raw rnd]; [by left|by right].
Qed.

Lemma txTask_no_sender_crash fuel sleepMin sleepMax raw rnd :
  txTask (S fuel) sleepMin sleepMax [] (raw :: rnd) = ([], Crashed).
Proof. reflexivity. Qed.

(** C7 (as amended). When the roster holds fewer than two non-miner
    addresses, [ethemu] raises no configuration error and launches the
    workload tasks; the transaction task then never submits a transaction:
    with one non-miner address it redraws the destination for ever, with none
    its first draw panics. *)
Theorem ethemu_few_senders iter :
  (length (nonMiners iter []) < 2)%nat ->
  ethemu iter <> ConfigurationError /\
  forall fuel sleepMin sleepMax rnd,
    (txTask fuel sleepMin sleepMax (nonMiners iter []) rnd).1 = [] /\
    (length (nonMiners iter []) = 1%nat ->
       (txTask fuel sleepMin sleepMax (nonMiners iter []) rnd).2 = Running) /\
    (length (nonMiners iter []) = 0%nat -> forall raw,
       (txTask (S fuel) sleepMin sleepMax (nonMiners iter []) (raw :: rnd)).2
         = Crashed).
Proof.
  intros Hlen. split; [done|].
  intros fuel sleepMin sleepMax rnd.
  destruct (nonMiners iter []) as [|a [|b l]]; simpl in Hlen; [| |lia].
  - split; [by destruct (txTask_no_sender fuel sleepMin sleepMax rnd) as [->| ->]|].
    split; [done|]. intros _ raw. by rewrite txTask_no_sender_crash.
  - rewrite txTask_single_sender. split; [done|]. split; [done|].
    by intros [=].
Qed.

Lemma ethemu_few_senders_witness :
  ethemu oneSender <> ConfigurationError /\
  forall fuel sleepMin sleepMax rnd,
    (txTask fuel sleepMin sleepMax (nonMiners oneSender []) rnd).1 = [] /\
    (length (nonMiners oneSender []) = 1%nat ->
       (txTask fuel sleepMin sleepMax (nonMiners oneSender []) rnd).2 = Running) /\
    (length (nonMiners oneSender []) = 0%nat -> forall raw,
       (txTask (S fuel) sleepMin sleepMax (nonMiners oneSender []) (raw :: rnd)).2
         = Crashed).
Proof. apply (ethemu_few_senders oneSender). simpl. lia. Defined.

(** C7, as stated, fails: on a roster with a single non-miner [ethemu]
    launches the tasks, and the transaction task redraws the destination for
    ever, submitting nothing; on a roster without non-miners the task panics
    after it was launched. *)
Lemma ethemu_config_error_counterexample :
  ethemu oneSender = Launched [11%N] [12%N] /\
  (forall fuel rnd, txTask fuel 100 300 [11%N] rnd = ([], Running)) /\
  ethemu noSender = Launched [] [12%N] /\
  (forall fuel rnd raw, txTask (S fuel) 100 300 [] (raw :: rnd) = ([], Crashed)).
Proof.
  split; [reflexivity|]. split; [intros; apply txTask_single_sender|].
  split; [reflexivity|]. intros. apply txTask_no_sender_crash.
Qed.

End ContinuousFacts.

(** ** The benchmark driver *)

Module BenchFacts.
Import emu Continuous Bench.

Lemma allSealers_elem iter : forall acc a,
  a ∈ allSealers iter acc <-> a ∈ acc \/ a ∈ iter.*1.
Proof.
  induction iter as [|[k nd] iter IH]; intros acc a; simpl.
  - rewrite elem_of_nil. tauto.
  - rewrite IH, elem_of_app, list_elem_of_singleton, elem_of_cons. tauto.
Qed.

Section DriverFacts.

Variable net : Type.
Variable Height : net -> N -> Z.
Variable InPool : net -> N -> Z -> bool.
Variable Etherbase : net -> N -> option N.
Variable Work : N -> net -> net.
Variable SendTransaction : N -> N -> Z -> net -> Z * net.
Variable Sleep : Z -> net -> net.
Variable step : net -> net.

Lemma pollHeights_mono sealers curHeight : forall w counter,
  (counter <= (pollHeights net Height step sealers curHeight w counter).1)%nat.
Proof.
  induction sealers as [|s rest IH]; intros w counter; simpl; [done|].
  case_decide; [apply IH|]. etrans; [|apply IH]. lia.
Qed.

(** A round that counts nobody has read the expected height at every node. *)
Lemma pollHeights_zero sealers curHeight : forall w,
  (pollHeights net Height step sealers curHeight w 0).1 = 0%nat ->
  Forall (fun h => h = curHeight) (heightsRead net Height step sealers w).
Proof.
  induction sealers as [|s rest IH]; intros w; simpl; [constructor|].
  case_decide as Hh.
  - intros H. constructor; [done|by apply IH].
  - intros H.
    pose proof (pollHeights_mono rest curHeight (step w) 1). lia.
Qed.

Lemma awaitHeights_Some fuel sealers curHeight : forall w w1,
  awaitHeights net Height step fuel sealers curHeight w = Some w1 ->
  exists wb,
    (pollHeights net Height step sealers curHeight wb 0).1 = 0%nat /\
    w1 = (pollHeights net Height step sealers curHeight wb 0).2.
Proof.
  induction fuel as [|fuel IH]; intros w w1; simpl; [done|].
  case_decide as Hc.
  - intros [= <-]. by exists w.
  - apply IH.
Qed.

Lemma heightMode_Exited fuel sealers wf : forall rnd curHeight w,
  0 <= curHeight < 110 ->
  heightMode net Height Etherbase Work Sleep step fuel rnd sealers curHeight w
    = Exited wf ->
  exists wb raw sealer,
    (pollHeights net Height step sealers 109 wb 0).1 = 0%nat /\
    Forall (fun h => h = 109) (heightsRead net Height step sealers wb) /\
    pick sealers raw = Done sealer /\
    wf = Work sealer
           (Sleep Second (pollHeights net Height step sealers 109 wb 0).2).
Proof.
  induction fuel as [|fuel IH]; intros rnd curHeight w Hcur; [done|].
  cbn [heightMode].
  destruct (awaitHeights net Height step (S fuel) sealers curHeight w)
    as [w1|] eqn:Haw; [|done].
  destruct rnd as [|raw rnd]; [done|].
  destruct (pick sealers raw) as [sealer| |] eqn:Hpick; [|done..].
  destruct (Etherbase (Sleep Second w1) sealer); [|done].
  assert (Hu : u64 (curHeight + 1) = curHeight + 1).
  { unfold u64, two64. rewrite Z.mod_small; lia. }
  rewrite Hu. destruct (Z.leb_spec 110 (curHeight + 1)).
  - intros [= <-]. assert (curHeight = 109) as -> by lia.
    apply awaitHeights_Some in Haw as (wb & Hz & ->).
    exists wb, raw, sealer. split; [done|].
    split; [by apply pollHeights_zero|]. done.
  - apply IH. lia.
Qed.


Lemma pollPools_mono sealers hash : forall w counter,
  (counter <= (pollPools net InPool step sealers hash w counter).1)%nat.
Proof.
  induction sealers as [|s rest IH]; intros w counter; simpl; [done|].
  destruct (InPool w s hash); [apply IH|]. etrans; [|apply IH]. lia.
Qed.

Lemma pollPools_zero sealers hash : forall w,
  (pollPools net InPool step sealers hash w 0).1 = 0%nat ->
  Forall (fun b => b = true) (poolsRead net InPool step sealers hash w).
Proof.
  induction sealers as [|s rest IH]; intros w; simpl; [constructor|].
  destruct (InPool w s hash).
  - intros H. constructor; [done|by apply IH].
  - intros H. pose proof (pollPools_mono rest hash (step w) 1). lia.
Qed.

(** The polling loop leaves by [break] only after a round that found the
    transaction in every pool, and by [os.Exit] only with the counter at
    5050. *)
Lemma awaitPools_spec fuel sealers hash : forall txNum w,
  0 <= txNum < 5050 ->
  match awaitPools net InPool step fuel sealers hash txNum w with
  | Broke _ txNum' =>
    inEveryPool net InPool step sealers hash /\ txNum <= txNum' < 5050
  | ExitedAt _ txNum' => txNum' = 5050
  | Polling txNum' => txNum <= txNum' < 5050
  end.
Proof.
  induction fuel as [|fuel IH]; intros txNum w Ht; simpl; [lia|].
  case_decide as Hc.
  - split; [|lia]. exists w. split; [done|by apply pollPools_zero].
  - assert (Hi : to_int (txNum + 1) = txNum + 1).
    { apply ContinuousFacts.to_int_small. unfold two63. lia. }
    rewrite Hi. destruct (Z.leb_spec 5050 (txNum + 1)); [lia|].
    specialize (IH (txNum + 1)
                  (pollPools net InPool step sealers hash w 0).2 ltac:(lia)).
    destruct (awaitPools _ _ _ _ _ _ _ _); [| |lia].
    + destruct IH. split; [done|lia].
    + done.
Qed.

Lemma txMode_spec fuel addrs sealers : forall rnd txNum sent w,
  0 <= txNum < 5050 ->
  Forall (inEveryPool net InPool step sealers) sent ->
  let r := txMode net InPool SendTransaction step fuel rnd addrs sealers
             txNum sent w in
  match ended r with
  | Exited _ => counted r = 5050
  | _ => 0 <= counted r < 5050
  end /\
  Forall (inEveryPool net InPool step sealers) (tail (submitted r)).
Proof.
  induction fuel as [|fuel IH]; intros rnd txNum sent w Ht Hsent.
  { simpl. split; [done|]. destruct sent; [done|]. by apply Forall_cons_1 in Hsent as []. }
  assert (Htail : Forall (inEveryPool net InPool step sealers) (tail sent)).
  { destruct sent; [done|]. by apply Forall_cons_1 in Hsent as []. }
  cbn [txMode]. destruct rnd as [|raw rnd1]; [by split|].
  destruct (pick addrs raw) as [from_| |]; [|by split..]. cbn [mbind outcome_bind].
  destruct (resample addrs from_ from_ rnd1) as [[to_ rnd2]| |]; [|by split..].
  cbn [mbind outcome_bind].
  destruct (SendTransaction from_ to_ txNum w) as [hash w1]. cbn [fst snd].
  pose proof (awaitPools_spec (S fuel) sealers hash txNum w1 Ht) as Haw.
  destruct (awaitPools net InPool step (S fuel) sealers hash txNum w1)
    as [w' txNum'|w' txNum'|txNum'].
  - destruct Haw as [Hin Hle]. apply IH; [lia|by constructor].
  - by split.
  - split; [simpl; lia|done].
Qed.


End DriverFacts.

(** The two-node network, with blocks propagating between any two calls of
    the driver. *)
Lemma lan_heightMode_run :
  blockHeightMode lan lanHeight lanEtherbase lanWork (fun _ => lanSync) lanSync
    200 (replicate 110 0) pairOfNodes lan0
  = Exited (mkLan (<[11%N := 110]> (<[12%N := 109]> ∅)) (pools lan0) 1).
Proof. vm_compute. reflexivity. Qed.




End BenchFacts.

(** ** Identities, miners, intervals and the roster *)

Module GenCmdFacts.
Import emu GenCmd.

Lemma readDec_app s1 : forall acc s2,
  readDec acc (s1 +:+ s2) = readDec (readDec acc s1) s2.
Proof. induction s1 as [|c s1 IH]; intros acc s2; simpl; [done|apply IH]. Qed.

Lemma digitChar_value d :
  0 <= d < 10 -> Z.of_nat (Ascii.nat_of_ascii (digitChar d)) - 48 = d.
Proof.
  intros Hd. unfold digitChar. rewrite Ascii.nat_ascii_embedding; lia.
Qed.

Lemma readDec_fixedWidth w : forall acc n,
  0 <= n ->
  readDec acc (fixedWidth w n) = acc * 10 ^ Z.of_nat w + n mod 10 ^ Z.of_nat w.
Proof.
  induction w as [|w IH]; intros acc n Hn.
  - simpl. rewrite Z.mod_1_r. lia.
  - cbn [fixedWidth]. rewrite readDec_app, IH by (apply Z.div_pos; lia).
    cbn [readDec]. rewrite digitChar_value by (apply Z.mod_pos_bound; lia).
    rewrite Nat2Z.inj_succ, Z.pow_succ_r by lia.
    rewrite (Z.rem_mul_r n 10 (10 ^ Z.of_nat w)) by lia. lia.
Qed.

Lemma widthFrom_bound fuel : forall w n,
  n < 10 ^ Z.of_nat (w + fuel) -> n < 10 ^ Z.of_nat (widthFrom fuel w n).
Proof.
  induction fuel as [|fuel IH]; intros w n Hn; simpl.
  - by rewrite Nat.add_0_r in Hn.
  - destruct (Z.ltb_spec n (10 ^ Z.of_nat w)); [done|].
    apply IH. by replace (S w + fuel)%nat with (w + S fuel)%nat by lia.
Qed.

(** The directory name of a node determines its identity. *)
Lemma readName_emuName id : 0 <= id < two64 -> readName (emuName id) = id.
Proof.
  intros Hid. unfold emuName.
  change (readDec 0 (fixedWidth (widthFrom 14 6 id) id) = id).
  rewrite readDec_fixedWidth by lia.
  rewrite Z.mod_small; [lia|]. split; [lia|].
  apply widthFrom_bound. unfold two64 in Hid.
  change (Z.of_nat (6 + 14)) with 20. lia.
Qed.

Lemma emuName_inj a b :
  0 <= a < two64 -> 0 <= b < two64 -> emuName a = emuName b -> a = b.
Proof.
  intros Ha Hb Heq.
  rewrite <- (readName_emuName a Ha), <- (readName_emuName b Hb).
  by rewrite Heq.
Qed.

Lemma setIdFrom_lookup nodes : forall i k,
  setIdFrom i nodes !! k =
  (fun nd => mkNode (Z.of_nat (i + k)) (Address nd) (IsMiner nd) (Peers nd))
    <$> nodes !! k.
Proof.
  induction nodes as [|nd nodes IH]; intros i k; [done|].
  destruct k as [|k]; simpl.
  - by rewrite Nat.add_0_r.
  - rewrite IH. by replace (S i + k)%nat with (i + S k)%nat by lia.
Qed.

(** X1. [setId] gives the node at index [i] the identity [i] and touches
    nothing else; the directory names [emu%06d] of two different nodes of a
    slice differ. *)
Theorem setId_names_distinct nodes i j a b :
  Z.of_nat (length nodes) <= two64 ->
  setId nodes !! i = Some a -> setId nodes !! j = Some b ->
  Identity a = Z.of_nat i /\
  (exists nd, nodes !! i = Some nd /\ Address a = Address nd /\
     IsMiner a = IsMiner nd /\ Peers a = Peers nd) /\
  (emuName (Identity a) = emuName (Identity b) -> i = j).
Proof.
  unfold setId. rewrite !setIdFrom_lookup. intros Hlen Ha Hb.
  destruct (nodes !! i) as [ni|] eqn:Hi; [|done].
  destruct (nodes !! j) as [nj|] eqn:Hj; [|done].
  injection Ha as <-. injection Hb as <-. simpl.
  apply lookup_lt_Some in Hi, Hj.
  split; [done|]. split; [by exists ni|].
  intros Heq. apply emuName_inj in Heq; lia.
Qed.

Lemma setId_names_distinct_witness :
  Identity (mkNode 1 32%N false []) = Z.of_nat 1 /\
  (exists nd, blank4 !! 1%nat = Some nd /\
     Address (mkNode 1 32%N false []) = Address nd /\
     IsMiner (mkNode 1 32%N false []) = IsMiner nd /\
     Peers (mkNode 1 32%N false []) = Peers nd) /\
  (emuName (Identity (mkNode 1 32%N false []))
     = emuName (Identity (mkNode 3 34%N false [])) -> 1%nat = 3%nat).
Proof.
  apply (setId_names_distinct blank4 1 3); [|reflexivity..].
  unfold two64. simpl. lia.
Defined.

(** *** setMiners *)

Lemma drawMiners_Done n num rnd : forall miners miners' rnd',
  drawn n num miners ->
  drawMiners n num rnd miners = Done (miners', rnd') ->
  drawn n num miners' /\ GenDegree.Cardinality miners' = Z.max 0 num.
Proof.
  unfold drawn.
  induction rnd as [|raw rnd IH]; intros miners miners' rnd' [Hsub Hcard];
    simpl; unfold GenDegree.Cardinality in *.
  - destruct (Z.ltb_spec (Z.of_nat (size miners)) num); [done|].
    intros [= <- _]. split; [done|lia].
  - destruct (Z.ltb_spec (Z.of_nat (size miners)) num) as [Hlt|Hge].
    + destruct (Intn (Z.of_nat n) raw) as [j|] eqn:Hj; [|done].
      apply IH. apply Intn_range in Hj. split.
      * intros k [->%elem_of_singleton|Hk]%elem_of_union; [lia|by apply Hsub].
      * pose proof (size_union_alt {[Z.to_nat j]} miners) as Hu.
        assert (Hd : (size (miners ∖ {[Z.to_nat j]}) <= size miners)%nat).
        { apply subseteq_size. intros x Hx.
          by apply elem_of_difference in Hx as [Hx _]. }
        rewrite size_singleton in Hu. lia.
    + intros [= <- _]. split; [done|lia].
Qed.

Lemma flagFrom_length miners nodes : forall i,
  length (flagFrom miners i nodes) = length nodes.
Proof.
  induction nodes as [|nd nodes IH]; intros i; simpl; [done|by rewrite IH].
Qed.

Lemma flagFrom_lookup miners nodes : forall i k,
  flagFrom miners i nodes !! k =
  (fun nd => mkNode (Identity nd) (Address nd)
                    (bool_decide ((i + k)%nat ∈ miners)) (Peers nd))
    <$> nodes !! k.
Proof.
  induction nodes as [|nd nodes IH]; intros i k; [done|].
  destruct k as [|k]; simpl.
  - by rewrite Nat.add_0_r.
  - rewrite IH. by replace (S i + k)%nat with (i + S k)%nat by lia.
Qed.

Lemma flagFrom_count miners nodes : forall i,
  minerCount (flagFrom miners i nodes) =
  length (filter (fun k => k ∈ miners) (seq i (length nodes))).
Proof.
  unfold minerCount.
  induction nodes as [|nd nodes IH]; intros i; [done|].
  cbn [flagFrom length seq]. rewrite !filter_cons. simpl.
  destruct (decide (i ∈ miners)) as [Hin|Hout].
  - rewrite bool_decide_eq_true_2 by done. rewrite decide_True by done.
    simpl. by rewrite IH.
  - rewrite bool_decide_eq_false_2 by done. rewrite decide_False by done.
    by rewrite IH.
Qed.

Lemma count_members n (miners : gset nat) :
  (forall j, j ∈ miners -> (j < n)%nat) ->
  length (filter (fun k => k ∈ miners) (seq 0 n)) = size miners.
Proof.
  intros Hsub. unfold size, set_size. simpl. apply Permutation_length.
  apply NoDup_Permutation.
  - apply list.NoDup_filter, NoDup_seq.
  - apply NoDup_elements.
  - intros k. rewrite list_elem_of_filter, elem_of_seq, elem_of_elements.
    split; [tauto|]. intros Hk. specialize (Hsub k Hk). split; [done|lia].
Qed.

(** X2. Whenever [setMiners] returns, exactly [num] nodes are flagged as
    miners (none when [num] is negative), and identities, addresses and peer
    lists are as they were. *)
Theorem setMiners_count num rnd nodes nodes' rnd' :
  setMiners num rnd nodes = Done (nodes', rnd') ->
  length nodes' = length nodes /\
  Z.of_nat (minerCount nodes') = Z.max 0 num /\
  forall i nd', nodes' !! i = Some nd' ->
    exists nd, nodes !! i = Some nd /\ Identity nd' = Identity nd /\
      Address nd' = Address nd /\ Peers nd' = Peers nd.
Proof.
  unfold setMiners.
  destruct (drawMiners (length nodes) num rnd ∅) as [[miners r]| |] eqn:Hd;
    [|done..].
  simpl. intros [= <- <-].
  apply drawMiners_Done in Hd as [[Hsub _] Hcard].
  2:{ split; [intros j Hj; by apply not_elem_of_empty in Hj|].
      unfold GenDegree.Cardinality. rewrite size_empty. lia. }
  split; [apply flagFrom_length|].
  split.
  { rewrite flagFrom_count, count_members by done. exact Hcard. }
  intros i nd'. rewrite flagFrom_lookup.
  destruct (nodes !! i) as [nd|]; [|done]. intros [= <-]. by exists nd.
Qed.

Lemma setMiners_count_witness :
  length blank4_flagged = length blank4 /\
  Z.of_nat (minerCount blank4_flagged) = Z.max 0 2 /\
  forall i nd', blank4_flagged !! i = Some nd' ->
    exists nd, blank4 !! i = Some nd /\ Identity nd' = Identity nd /\
      Address nd' = Address nd /\ Peers nd' = Peers nd.
Proof.
  apply (setMiners_count 2 [1; 5; 3] blank4 blank4_flagged []).
  vm_compute. reflexivity.
Defined.

(** X3. [setMiners] asked for more miners than there are nodes never
    returns, whatever the draws; on an empty slice with [num > 0] its first
    draw panics. *)
Theorem setMiners_too_many num nodes :
  Z.of_nat (length nodes) < num ->
  (forall rnd nodes' rnd', setMiners num rnd nodes <> Done (nodes', rnd')) /\
  (nodes = [] -> forall raw rnd, setMiners num (raw :: rnd) nodes = Panic).
Proof.
  intros Hnum. split.
  - intros rnd nodes' rnd'. unfold setMiners.
    destruct (drawMiners (length nodes) num rnd ∅) as [[miners r]| |] eqn:Hd;
      [|done..].
    apply drawMiners_Done in Hd as [[Hsub _] Hcard].
    2:{ split; [intros j Hj; by apply not_elem_of_empty in Hj|].
        unfold GenDegree.Cardinality. rewrite size_empty. lia. }
    exfalso. unfold GenDegree.Cardinality in Hcard.
    rewrite <- (count_members (length nodes) miners Hsub) in Hcard.
    pose proof (length_filter (fun k => k ∈ miners) (seq 0 (length nodes))) as Hf.
    rewrite length_seq in Hf. lia.
  - intros -> raw rnd. unfold setMiners. cbn [length drawMiners].
    replace (GenDegree.Cardinality ∅ <? num) with true.
    + by rewrite Intn_panics.
    + symmetry. apply Z.ltb_lt. unfold GenDegree.Cardinality.
      rewrite size_empty. simpl in Hnum. lia.
Qed.

Lemma setMiners_too_many_witness :
  (forall rnd nodes' rnd', setMiners 5 rnd blank4 <> Done (nodes', rnd')) /\
  (blank4 = [] -> forall raw rnd, setMiners 5 (raw :: rnd) blank4 = Panic).
Proof. apply (setMiners_too_many 5 blank4). simpl. lia. Defined.

(** *** generateConfig: the intervals *)

(** X4. With a block time whose milliseconds fit [uint64] and rates
    [0 < minTx <= maxTx], [generateConfig] computes
    [MinTxInterval = blockTime * 1000 / maxTx] and
    [MaxTxInterval = blockTime * 1000 / minTx], with
    [MinTxInterval <= MaxTxInterval]; a rate of 0 makes the division panic. *)
Theorem intervals_ordered blockTime minTx maxTx :
  0 <= blockTime -> blockTime * 1000 < two64 ->
  0 < minTx <= maxTx -> maxTx < two64 ->
  intervals blockTime minTx maxTx
    = Done (blockTime, blockTime * 1000 / maxTx, blockTime * 1000 / minTx) /\
  0 <= blockTime * 1000 / maxTx <= blockTime * 1000 / minTx /\
  intervals blockTime 0 maxTx = Panic /\
  intervals blockTime minTx 0 = Panic.
Proof.
  intros Hbt Hms Hmin Hmax.
  assert (H64 : two64 = 18446744073709551616) by reflexivity.
  unfold intervals.
  rewrite !(ContinuousFacts.u64_small blockTime) by lia.
  rewrite !(ContinuousFacts.u64_small (blockTime * 1000)) by lia.
  rewrite !(ContinuousFacts.u64_small minTx) by lia.
  rewrite !(ContinuousFacts.u64_small maxTx) by lia.
  change (u64 0) with 0. simpl (0 =? 0).
  destruct (Z.eqb_spec maxTx 0); [lia|]. destruct (Z.eqb_spec minTx 0); [lia|].
  split; [done|]. split; [|done].
  split; [apply Z.div_pos; lia|].
  apply Z.div_le_compat_l; lia.
Qed.

Lemma intervals_ordered_witness :
  intervals 15 50 150 = Done (15, 15 * 1000 / 150, 15 * 1000 / 50) /\
  0 <= 15 * 1000 / 150 <= 15 * 1000 / 50 /\
  intervals 15 0 150 = Panic /\
  intervals 15 50 0 = Panic.
Proof.
  apply (intervals_ordered 15 50 150); unfold two64; lia.
Defined.

Lemma sleepFor_reversed sleepMin sleepMax raw :
  0 <= sleepMax <= sleepMin -> sleepMin < two63 ->
  Continuous.sleepFor sleepMin sleepMax raw = Panic.
Proof.
  intros Hle Hmin. unfold Continuous.sleepFor.
  assert (H63 : two63 = 9223372036854775808) by reflexivity.
  assert (H64 : two64 = 18446744073709551616) by reflexivity.
  rewrite Intn_panics; [done|].
  destruct (decide (sleepMax = sleepMin)) as [->|Hne].
  - rewrite Z.sub_diag. done.
  - unfold u64, to_int.
    replace ((sleepMax - sleepMin) mod two64)
      with (sleepMax - sleepMin + two64).
    + replace ((sleepMax - sleepMin + two64 + two63) mod two64)
        with (sleepMax - sleepMin + two63); [lia|].
      apply Z.mod_unique with 1; lia.
    + apply Z.mod_unique with (-1); lia.
Qed.



(** *** generateConfig: the roster *)

Lemma fillNodes_lookup nodes : forall m k nd,
  fillNodes nodes m !! k = Some nd ->
  (nd ∈ nodes /\ Address nd = k) \/ m !! k = Some nd.
Proof.
  induction nodes as [|x nodes IH]; intros m k nd; simpl; [by right|].
  intros [[Hin Hk]|Hm]%IH.
  - left. split; [by right|done].
  - destruct (decide (Address x = k)) as [<-|Hne].
    + rewrite lookup_insert_eq in Hm. injection Hm as <-.
      left. split; [by left|done].
    + rewrite lookup_insert_ne in Hm by done. by right.
Qed.

Lemma fillNodes_keep nodes : forall m k,
  k ∉ Address <$> nodes -> fillNodes nodes m !! k = m !! k.
Proof.
  induction nodes as [|x nodes IH]; intros m k Hk; simpl; [done|].
  rewrite fmap_cons, not_elem_of_cons in Hk. destruct Hk as [Hne Hk].
  rewrite IH by done. by rewrite lookup_insert_ne.
Qed.

Lemma fillNodes_dom nodes : forall m,
  dom (fillNodes nodes m) = list_to_set (Address <$> nodes) ∪ dom m.
Proof.
  induction nodes as [|x nodes IH]; intros m; simpl.
  - by rewrite (left_id_L ∅ (∪)).
  - rewrite IH, dom_insert_L.
    rewrite !(assoc_L (∪)). f_equal. apply (comm_L (∪)).
Qed.

(** X6. The roster [generateConfig] builds is keyed by address: every entry
    is a node of the slice stored under its own address.  When the addresses
    of the slice are pairwise distinct, every node of the slice is in the
    roster and the roster has as many entries as the slice has nodes. *)
Theorem fillNodes_address_keyed nodes :
  NoDup (Address <$> nodes) ->
  (forall k nd, fillNodes nodes ∅ !! k = Some nd ->
     nd ∈ nodes /\ Address nd = k) /\
  (forall nd, nd ∈ nodes -> fillNodes nodes ∅ !! Address nd = Some nd) /\
  size (fillNodes nodes ∅) = length nodes.
Proof.
  intros Hnd. split; [|split].
  - intros k nd [H|H]%fillNodes_lookup; [done|by rewrite lookup_empty in H].
  - revert Hnd. generalize (∅ : gmap N Node).
    induction nodes as [|x nodes IH]; intros m Hnd nd Hin.
    + by apply elem_of_nil in Hin.
    + rewrite fmap_cons in Hnd. apply list.NoDup_cons in Hnd as [Hx Hnd].
      apply elem_of_cons in Hin as [->|Hin]; simpl.
      * rewrite fillNodes_keep by done. by rewrite lookup_insert_eq.
      * by apply IH.
  - rewrite <- size_dom, fillNodes_dom, dom_empty_L, (right_id_L ∅ (∪)).
    rewrite size_list_to_set by done. by rewrite length_fmap.
Qed.

Lemma fillNodes_address_keyed_witness :
  (forall k nd, fillNodes blank4 ∅ !! k = Some nd ->
     nd ∈ blank4 /\ Address nd = k) /\
  (forall nd, nd ∈ blank4 -> fillNodes blank4 ∅ !! Address nd = Some nd) /\
  size (fillNodes blank4 ∅) = length blank4.
Proof.
  apply (fillNodes_address_keyed blank4).
  apply (bool_decide_unpack _). vm_compute. exact I.
Defined.

End GenCmdFacts.

(** ** GetAddrById *)

Module emuLookupFacts.
Import emu GenCmd emuLookup.

Lemma GetAddrById_found iter id addr :
  GetAddrById iter id = (addr, None) ->
  exists node, (addr, node) ∈ iter /\ emuName (Identity node) = id.
Proof.
  induction iter as [|[k nd] iter IH]; simpl; [done|].
  case_decide as Hid.
  - intros [= <-]. exists nd. split; [by left|done].
  - intros (node & Hin & Hn)%IH. exists node. split; [by right|done].
Qed.

Lemma GetAddrById_missing iter id :
  GetAddrById iter id = (0%N, Some ErrAddrNotFound) <->
  forall k node, (k, node) ∈ iter -> emuName (Identity node) <> id.
Proof.
  induction iter as [|[k nd] iter IH]; simpl.
  - split; [|done]. intros _ k node H. by apply elem_of_nil in H.
  - case_decide as Hid.
    + split; [done|]. intros H. exfalso. apply (H k nd); [by left|done].
    + rewrite IH. split.
      * intros H k' node [[= -> ->]|Hin]%elem_of_cons; [done|by eapply H].
      * intros H k' node Hin. apply (H k' node). by right.
Qed.

(** X7. On a roster whose identities are pairwise distinct [uint64]s,
    [GetAddrById] maps the directory name of every node to the key of that
    node, in whatever order the map is ranged over; and it returns
    [ErrAddrNotFound] (with the zero address) exactly when no node has the
    name asked for. *)
Theorem GetAddrById_finds_node iter :
  (forall k node, (k, node) ∈ iter -> 0 <= Identity node < two64) ->
  (forall i j e1 e2, iter !! i = Some e1 -> iter !! j = Some e2 ->
     Identity e1.2 = Identity e2.2 -> i = j) ->
  (forall iter' k node, iter' ≡ₚ iter -> (k, node) ∈ iter ->
     GetAddrById iter' (emuName (Identity node)) = (k, None)) /\
  (forall iter' id, iter' ≡ₚ iter ->
     GetAddrById iter' id = (0%N, Some ErrAddrNotFound) <->
     forall k node, (k, node) ∈ iter -> emuName (Identity node) <> id).
Proof.
  intros Hrange Huniq. split.
  - intros iter' k node Hperm Hin.
    destruct (GetAddrById iter' (emuName (Identity node))) as [a [e|]] eqn:Hget.
    + exfalso. destruct e.
      assert (a = 0%N) as ->.
      { clear -Hget. induction iter' as [|[k' nd'] iter' IH]; simpl in Hget.
        - by injection Hget.
        - case_decide; [done|by apply IH]. }
      pose proof (proj1 (GetAddrById_missing _ _) Hget) as Hmiss.
      apply (Hmiss k node); [|done]. by rewrite Hperm.
    + apply GetAddrById_found in Hget as (node' & Hin' & Hname).
      rewrite Hperm in Hin'.
      apply GenCmdFacts.emuName_inj in Hname; [|by eapply Hrange..].
      apply list_elem_of_lookup in Hin as [i Hi], Hin' as [j Hj].
      assert (j = i) as -> by (by eapply Huniq).
      congruence.
  - intros iter' id Hperm. rewrite GetAddrById_missing.
    by setoid_rewrite Hperm.
Qed.

Lemma GetAddrById_finds_node_witness :
  (forall iter' k node, iter' ≡ₚ Continuous.oneSender ->
     (k, node) ∈ Continuous.oneSender ->
     GetAddrById iter' (emuName (Identity node)) = (k, None)) /\
  (forall iter' id, iter' ≡ₚ Continuous.oneSender ->
     GetAddrById iter' id = (0%N, Some ErrAddrNotFound) <->
     forall k node, (k, node) ∈ Continuous.oneSender ->
       emuName (Identity node) <> id).
Proof.
  apply (GetAddrById_finds_node Continuous.oneSender).
  - intros k node Hin. unfold Continuous.oneSender in Hin.
    apply elem_of_cons in Hin as [[= -> ->]|Hin]; [simpl; unfold two64; lia|].
    apply elem_of_cons in Hin as [[= -> ->]|Hin]; [simpl; unfold two64; lia|].
    by apply elem_of_nil in Hin.
  - intros i j e1 e2 H1 H2 Hid.
    destruct i as [|[|i]], j as [|[|j]]; simpl in H1, H2;
      try discriminate; try reflexivity;
      injection H1 as <-; injection H2 as <-; simpl in Hid; discriminate.
Defined.

End emuLookupFacts.

(** ** The sealing task *)

Module SealingFacts.
Import emu GenCmd Sealing.

Lemma miners_elem iter : forall acc a,
  a ∈ Continuous.miners iter acc <->
  a ∈ acc \/ exists nd, (a, nd) ∈ iter /\ IsMiner nd = true.
Proof.
  induction iter as [|[k nd] iter IH]; intros acc a; simpl.
  - split; [by left|]. intros [H|(nd & H%elem_of_nil & _)]; done.
  - rewrite IH. split.
    + intros [H|(nd' & Hin & Hm)].
      * destruct (IsMiner nd) eqn:Hm; [|by left].
        apply elem_of_app in H as [H|H]; [by left|].
        apply list_elem_of_singleton in H as ->.
        right. exists nd. split; [by left|done].
      * right. exists nd'. split; [by right|done].
    + intros [H|(nd' & Hin & Hm)].
      * left. destruct (IsMiner nd); [|done]. apply elem_of_app. by left.
      * apply elem_of_cons in Hin as [[= -> ->]|Hin].
        -- left. rewrite Hm. apply elem_of_app. right.
           by apply list_elem_of_singleton.
        -- right. by exists nd'.
Qed.

Lemma miners_length iter : forall acc,
  length (Continuous.miners iter acc) = (length acc + minerEntries iter)%nat.
Proof.
  unfold minerEntries.
  induction iter as [|[k nd] iter IH]; intros acc; simpl; [lia|].
  rewrite IH, filter_cons.
  destruct (decide (IsMiner (k, nd).2 = true)) as [Hm|Hm]; simpl in Hm.
  - rewrite Hm, length_app. simpl. lia.
  - apply not_true_is_false in Hm. rewrite Hm. lia.
Qed.

Lemma pick_nil raw : Continuous.pick [] raw = Panic.
Proof. reflexivity. Qed.

Lemma pick_Done addrs raw :
  addrs <> [] -> exists a, Continuous.pick addrs raw = Done a.
Proof.
  intros Hne. unfold Continuous.pick.
  assert (0 < Z.of_nat (length addrs)) as Hpos by (destruct addrs; simpl; [done|lia]).
  rewrite Intn_some by done.
  pose proof (Z.mod_pos_bound raw _ Hpos) as Hb.
  destruct (lookup_lt_is_Some_2 addrs (Z.to_nat (raw mod Z.of_nat (length addrs))))
    as [a Ha]; [lia|].
  rewrite Ha. by exists a.
Qed.

Lemma jitterDelay_window raw :
  exists d, jitterDelay raw = Done d /\
    10 * Second <= d < 15 * Second.
Proof.
  unfold jitterDelay. rewrite Intn_some by lia.
  pose proof (Z.mod_pos_bound raw 5000 ltac:(lia)) as Hb.
  eexists. split; [reflexivity|].
  rewrite (ContinuousFacts.to_int_small (10000 + _))
    by (unfold two63; lia).
  rewrite ContinuousFacts.to_int_small
    by (unfold two63, Continuous.Millisecond; lia).
  unfold Continuous.Millisecond, Second. lia.
Qed.

Lemma sealTask_timer etherbaseErr rule (P : Z -> Prop) sealers :
  (forall rnd d rnd', timer rule rnd = Done (d, rnd') -> P d) ->
  forall fuel k rnd s,
    s ∈ (sealTask etherbaseErr rule fuel k sealers rnd).1 ->
    sealer s ∈ sealers /\ P (wait s).
Proof.
  intros HP. induction fuel as [|fuel IH]; intros k rnd s; simpl.
  - by intros ?%elem_of_nil.
  - destruct rnd as [|raw rnd1]; [by intros ?%elem_of_nil|].
    destruct (Continuous.pick sealers raw) as [a| |] eqn:Hp;
      [|by intros ?%elem_of_nil..].
    destruct (etherbaseErr k a); [by intros ?%elem_of_nil|].
    destruct (timer rule rnd1) as [[d rnd2]| |] eqn:Ht;
      [|by intros ?%elem_of_nil..].
    simpl. intros [->|Hin]%elem_of_cons.
    + simpl. split; [by eapply ContinuousFacts.pick_elem|by eapply HP].
    + by eapply IH.
Qed.

Lemma sealTask_alive etherbaseErr rule sealers :
  sealers <> [] ->
  forall fuel k rnd,
    (sealTask etherbaseErr rule fuel k sealers rnd).2 <> Crashed.
Proof.
  intros Hne. induction fuel as [|fuel IH]; intros k rnd; simpl; [done|].
  destruct rnd as [|raw rnd1]; [done|].
  destruct (pick_Done sealers raw Hne) as [a ->].
  destruct (etherbaseErr k a); [done|].
  destruct rule as [period|]; simpl.
  - apply IH.
  - destruct rnd1 as [|raw' rnd2]; [done|].
    apply IH.
Qed.


(** X9. With the jittered timer every seal follows a wait of at least 10 and
    less than 15 seconds, whatever [Period] the descriptor holds; drawing the
    jitter never panics. *)
Theorem sealTask_jitter_window etherbaseErr sealers fuel k rnd s :
  s ∈ (sealTask etherbaseErr JitterTimer fuel k sealers rnd).1 ->
  10 * Second <= wait s < 15 * Second.
Proof.
  intros Hin.
  apply (sealTask_timer _ _ (fun d => 10 * Second <= d < 15 * Second)) in Hin
    as [_ H]; [done|].
  intros [|raw rnd0] d rnd'; cbn [timer]; [done|].
  destruct (jitterDelay_window raw) as (d' & -> & Hd). simpl.
  by intros [= <- _].
Qed.

Lemma sealTask_jitter_window_witness :
  10 * Second <= wait (mkSeal 12%N 12345000000) < 15 * Second.
Proof.
  apply (sealTask_jitter_window (fun _ _ => false) [12%N] 1 0 [7; 2345]).
  vm_compute. left.
Defined.

(** X10. With the period timer and a [Period] in [uint64], every seal follows
    a wait of exactly [Period] seconds when [Period <= 9223372036]; for a
    larger [Period] the product wraps around in [int64] and the wait is not
    [Period] seconds. *)
Theorem sealTask_period_wait etherbaseErr period sealers fuel k rnd s :
  0 <= period < two64 ->
  s ∈ (sealTask etherbaseErr (PeriodTimer period) fuel k sealers rnd).1 ->
  (period <= 9223372036 -> wait s = period * Second) /\
  (9223372036 < period -> wait s <> period * Second).
Proof.
  intros Hp Hin.
  apply (sealTask_timer _ _ (fun d => d = periodDelay period)) in Hin
    as [_ ->]; [|by intros rnd0 d rnd' [= <- _]].
  unfold periodDelay. split; intros Hr.
  - rewrite (ContinuousFacts.to_int_small period) by (unfold two63; lia).
    rewrite ContinuousFacts.to_int_small by (unfold two63, Second; lia).
    done.
  - assert (forall z, to_int z < two63) as Hlt.
    { intros z. unfold to_int, two63, two64.
      pose proof (Z.mod_pos_bound (z + 2 ^ 63) (2 ^ 64) ltac:(lia)). lia. }
    specialize (Hlt (to_int period * Second)).
    unfold two63, Second in *. lia.
Qed.

Lemma sealTask_period_wait_witness :
  (15 <= 9223372036 -> wait (mkSeal 12%N 15000000000) = 15 * Second) /\
  (9223372036 < 15 -> wait (mkSeal 12%N 15000000000) <> 15 * Second).
Proof.
  apply (sealTask_period_wait (fun _ _ => false) 15 [12%N] 1 0 [7]).
  - unfold two64. lia.
  - vm_compute. left.
Defined.

Lemma fillNodes_member nodes : forall m nd,
  NoDup (Address <$> nodes) -> nd ∈ nodes ->
  fillNodes nodes m !! Address nd = Some nd.
Proof.
  induction nodes as [|x nodes IH]; intros m nd Hnd Hin.
  - by apply elem_of_nil in Hin.
  - rewrite fmap_cons in Hnd. apply list.NoDup_cons in Hnd as [Hx Hnd].
    apply elem_of_cons in Hin as [->|Hin]; simpl.
    + rewrite GenCmdFacts.fillNodes_keep by done. by rewrite lookup_insert_eq.
    + by apply IH.
Qed.

Lemma fillNodes_entries nodes :
  NoDup (Address <$> nodes) ->
  map_to_list (fillNodes nodes ∅) ≡ₚ (fun nd => (Address nd, nd)) <$> nodes.
Proof.
  intros Hnd. apply NoDup_Permutation.
  - apply NoDup_map_to_list.
  - apply (NoDup_fmap_1 fst). by rewrite <- list_fmap_compose.
  - intros [k nd]. rewrite elem_of_map_to_list, list_elem_of_fmap. split.
    + intros [[Hin <-]|H]%GenCmdFacts.fillNodes_lookup;
        [by exists nd|by rewrite lookup_empty in H].
    + intros (x & [= -> ->] & Hin). by apply fillNodes_member.
Qed.

Lemma minerEntries_fmap nodes :
  minerEntries ((fun nd => (Address nd, nd)) <$> nodes) = minerCount nodes.
Proof.
  unfold minerEntries, minerCount.
  induction nodes as [|x nodes IH]; [done|].
  rewrite fmap_cons, !filter_cons. simpl.
  destruct (decide (IsMiner x = true)); simpl; by rewrite IH.
Qed.

Lemma assigned_keeps Iter all : forall nodes peers nodes',
  length peers = length nodes ->
  Forall2 (GenDegree.assigned Iter all) (zip nodes peers) nodes' ->
  Address <$> nodes' = Address <$> nodes /\
  IsMiner <$> nodes' = IsMiner <$> nodes.
Proof.
  induction nodes as [|nd nodes IH]; intros peers nodes' Hlen Has.
  - destruct peers; [|done]. by inversion Has.
  - destruct peers as [|s peers]; [done|]. simpl in Has.
    inversion Has as [|e a todo out (nds & _ & ->) Hrest]; subst.
    destruct (IH peers out) as [Ha Hm]; [by simplify_eq/=|done|].
    rewrite !fmap_cons, Ha, Hm. done.
Qed.

Lemma setPeers_keeps Iter fuel rnd minPeer maxPeer nodes nodes' :
  GenDegree.setPeers Iter fuel rnd minPeer maxPeer nodes = Done nodes' ->
  Address <$> nodes' = Address <$> nodes /\
  IsMiner <$> nodes' = IsMiner <$> nodes.
Proof.
  intros (peers & [Hlen _] & _ & Has)%GenDegreeFacts.setPeers_inv.
  apply GenDegreeFacts.assign_Done in Has.
  by eapply assigned_keeps.
Qed.

Lemma minerCount_flags nodes nodes' :
  IsMiner <$> nodes' = IsMiner <$> nodes -> minerCount nodes' = minerCount nodes.
Proof.
  unfold minerCount. revert nodes'.
  induction nodes as [|x nodes IH]; intros [|y nodes']; try done.
  rewrite !fmap_cons. intros [= Hxy Hrest]. rewrite !filter_cons, Hxy.
  destruct (decide (IsMiner x = true)); simpl; by rewrite (IH _ Hrest).
Qed.

Lemma setMiners_flags num rnd nodes nodes' rnd' :
  setMiners num rnd nodes = Done (nodes', rnd') ->
  Z.of_nat (minerCount nodes') = Z.max 0 num /\
  Address <$> nodes' = Address <$> nodes.
Proof.
  unfold setMiners.
  destruct (drawMiners (length nodes) num rnd ∅) as [[miners r]| |] eqn:Hd;
    [|done..].
  simpl. intros [= <- <-].
  apply GenCmdFacts.drawMiners_Done in Hd as [[Hsub _] Hcard].
  - split.
    + rewrite GenCmdFacts.flagFrom_count, GenCmdFacts.count_members by done.
      exact Hcard.
    + apply list_eq. intros i. rewrite !list_lookup_fmap.
      rewrite GenCmdFacts.flagFrom_lookup. by destruct (nodes !! i).
  - split; [intros j Hj; by apply elem_of_empty in Hj|].
    unfold GenDegree.Cardinality. rewrite size_empty. lia.
Qed.

(** X11. From the generator to the driver: when [setMiners] and then the
    degree-bounded [setPeers] have returned on nodes with pairwise distinct
    addresses and the roster is filled from the result, the sealing task of
    [ethemu] draws among exactly [max 0 num] sealers, in whatever order the
    roster is ranged over.  With a miner count of 0 or less it panics at its
    first draw and no block is ever sealed; with a positive count it never
    panics. *)
Theorem sealing_needs_miner_flag Iter fuelP num minPeer maxPeer rnd nodes
    nodes' rnd' nodes'' iter :
  NoDup (Address <$> nodes) ->
  setMiners num rnd nodes = Done (nodes', rnd') ->
  GenDegree.setPeers Iter fuelP rnd' minPeer maxPeer nodes' = Done nodes'' ->
  iter ≡ₚ map_to_list (fillNodes nodes'' ∅) ->
  Z.of_nat (length (Continuous.miners iter [])) = Z.max 0 num /\
  (num <= 0 -> forall etherbaseErr rule fuel k raw rnd0,
     sealTask etherbaseErr rule (S fuel) k (Continuous.miners iter [])
       (raw :: rnd0) = ([], Crashed)) /\
  (0 < num -> forall etherbaseErr rule fuel k rnd0,
     (sealTask etherbaseErr rule fuel k (Continuous.miners iter []) rnd0).2
       <> Crashed).
Proof.
  intros Hnd Hm Hp Hiter.
  apply setMiners_flags in Hm as [Hcount Haddr].
  apply setPeers_keeps in Hp as [Haddr' Hflag].
  assert (Z.of_nat (length (Continuous.miners iter [])) = Z.max 0 num) as Hlen.
  { rewrite miners_length. simpl. unfold minerEntries.
    rewrite Hiter, fillNodes_entries by (by rewrite Haddr', Haddr).
    fold (minerEntries ((fun nd => (Address nd, nd)) <$> nodes'')).
    by rewrite minerEntries_fmap, (minerCount_flags _ _ Hflag). }
  split; [done|]. split.
  - intros Hnum etherbaseErr rule fuel k raw rnd0.
    destruct (Continuous.miners iter []) as [|a l]; [reflexivity|].
    simpl in Hlen. lia.
  - intros Hnum etherbaseErr rule fuel k rnd0. apply sealTask_alive.
    intros Hnil. rewrite Hnil in Hlen. simpl in Hlen. lia.
Qed.

Lemma sealing_needs_miner_flag_witness :
  Z.of_nat (length (Continuous.miners
                      (map_to_list (fillNodes blank4_flagged ∅)) []))
    = Z.max 0 2 /\
  (2 <= 0 -> forall etherbaseErr rule fuel k raw rnd0,
     sealTask etherbaseErr rule (S fuel) k
       (Continuous.miners (map_to_list (fillNodes blank4_flagged ∅)) [])
       (raw :: rnd0) = ([], Crashed)) /\
  (0 < 2 -> forall etherbaseErr rule fuel k rnd0,
     (sealTask etherbaseErr rule fuel k
        (Continuous.miners (map_to_list (fillNodes blank4_flagged ∅)) [])
        rnd0).2 <> Crashed).
Proof.
  apply (sealing_needs_miner_flag elements 0 2 0 3 [1; 5; 3] blank4
           blank4_flagged [] blank4_flagged).
  - apply (bool_decide_unpack _). vm_compute. exact I.
  - vm_compute. reflexivity.
  - vm_compute. reflexivity.
  - reflexivity.
Defined.

End SealingFacts.

(** ** The badger key-value store *)

Module BadgerFacts.
Import Badger.

Lemma to_int_add_l a c : to_int (to_int a + c) = to_int (a + c).
Proof.
  unfold to_int. f_equal.
  replace ((a + two63) mod two64 - two63 + c + two63)
    with ((a + two63) mod two64 + c) by lia.
  rewrite Z.add_mod_idemp_l by (unfold two64; lia).
  f_equal. lia.
Qed.

Lemma to_int_add_r a c : to_int (a + to_int c) = to_int (a + c).
Proof. by rewrite (Z.add_comm a), to_int_add_l, (Z.add_comm c). Qed.

Lemma opsSize_app l1 l2 : opsSize (l1 ++ l2) = opsSize l1 + opsSize l2.
Proof.
  unfold opsSize. induction l1 as [|o l1 IH]; simpl; [done|].
  rewrite IH. lia.
Qed.

Lemma perform_invariant {DB WriteBatch} New wbSet wbDelete wbFlush
    (bt : batch DB WriteBatch) c :
  ValueSize bt = to_int (opsSize (ops bt)) -> recorded (ops bt) ->
  let bt' := perform New wbSet wbDelete wbFlush bt c in
  ValueSize bt' = to_int (opsSize (ops bt')) /\ recorded (ops bt').
Proof.
  unfold ValueSize, recorded. intros Hs Hr.
  destruct c as [k v|k| |]; simpl.
  - unfold batchPut. destruct (wbSet (b bt) k v) as [wb [err|]]; simpl; [done|].
    split.
    + rewrite opsSize_app, Hs, to_int_add_l, to_int_add_r.
      f_equal. unfold opsSize, opSize. simpl. lia.
    + apply Forall_app. split; [done|]. by constructor.
  - unfold batchDelete. destruct (wbDelete (b bt) k) as [wb [err|]]; simpl;
      [done|].
    split.
    + rewrite opsSize_app, Hs, to_int_add_l.
      f_equal. unfold opsSize, opSize. simpl. lia.
    + apply Forall_app. split; [done|]. by constructor.
  - done.
  - split; [done|constructor].
Qed.

(** X12. Whatever calls of [Put], [Delete], [Write] and [Reset] are made on
    a batch since [NewBatch], and whichever of them badger refuses,
    [ValueSize] is the sum, over the operations the batch holds for [Replay],
    of the key's and the value's length (in [int], so up to wrap-around), and
    every recorded deletion carries a nil value. *)
Theorem batch_size_invariant {DB WriteBatch} New wbSet wbDelete wbFlush
    (d : DB) (cs : list call) :
  ValueSize (performAll (WriteBatch:=WriteBatch) New wbSet wbDelete wbFlush d cs)
    = to_int (opsSize (ops (performAll New wbSet wbDelete wbFlush d cs))) /\
  (opsSize (ops (performAll New wbSet wbDelete wbFlush d cs)) < two63 ->
   ValueSize (performAll New wbSet wbDelete wbFlush d cs)
     = opsSize (ops (performAll New wbSet wbDelete wbFlush d cs))) /\
  opsSize (ops (performAll New wbSet wbDelete wbFlush d cs))
    = foldr (fun o acc => len (key o) + len (value o) + acc) 0
        (ops (performAll New wbSet wbDelete wbFlush d cs)).
Proof.
  assert (ValueSize (performAll New wbSet wbDelete wbFlush d cs)
          = to_int (opsSize (ops (performAll New wbSet wbDelete wbFlush d cs)))
          /\ recorded (ops (performAll New wbSet wbDelete wbFlush d cs)))
    as [Hs Hr].
  { unfold performAll. induction cs as [|c cs IH] using rev_ind.
    - split; [done|constructor].
    - rewrite foldl_app. simpl. destruct IH as [Hs Hr].
      by apply perform_invariant. }
  revert Hs Hr.
  generalize (performAll New wbSet wbDelete wbFlush d cs). intros bt Hs Hr.
  split; [done|]. split.
  - intros Hlt. rewrite Hs. apply ContinuousFacts.to_int_small.
    assert (forall l, 0 <= opsSize l) as Hpos.
    { unfold opsSize, opSize, len. induction l as [|o l IH]; simpl; [done|].
      destruct (op o); lia. }
    specialize (Hpos (ops bt)). unfold two63 in *. lia.
  - clear Hs. revert Hr. generalize (ops bt). intros l Hr.
    induction Hr as [|o l Ho Hr IH]; [done|].
    unfold opsSize in *. simpl. rewrite IH. unfold opSize.
    destruct (op o); [done|]. rewrite Ho by done. unfold len. simpl. lia.
Qed.

Lemma replayOps_batch {DB WriteBatch} wbSet wbDelete todo :
  recorded todo ->
  forall (w w' : batch DB WriteBatch) r,
  ValueSize w = to_int (opsSize (ops w)) ->
  @replayOps _ (batch_writer wbSet wbDelete) todo w = (w', r) ->
  exists n,
    ops w' = ops w ++ take n todo /\
    ValueSize w' = to_int (opsSize (ops w')) /\
    (r = None -> n = length todo) /\
    (forall err, r = Some err -> (n < length todo)%nat).
Proof.
  unfold ValueSize.
  induction 1 as [|o todo Ho Hr IH]; intros w w' r Hs; simpl.
  - intros [= <- <-]. exists 0%nat. rewrite app_nil_r. done.
  - destruct o as [[] k v]; simpl in *.
    + unfold batchPut. destruct (wbSet (b w) k v) as [wb [err|]]; simpl.
      * intros [= <- <-]. exists 0%nat. simpl. rewrite app_nil_r.
        split; [done|]. split; [done|]. split; [done|]. intros; lia.
      * intros Hrep. apply IH in Hrep as (n & Hops & Hsz & Hn & He).
        -- exists (S n). simpl in Hops.
           split; [by rewrite Hops, <- app_assoc|].
           split; [done|]. simpl. split.
           ++ intros Hnone. by rewrite Hn.
           ++ intros err Herr. specialize (He _ Herr). lia.
        -- simpl. rewrite opsSize_app, Hs, to_int_add_l, to_int_add_r.
           f_equal. unfold opsSize, opSize. simpl. lia.
    + rewrite (Ho eq_refl).
      unfold batchDelete. destruct (wbDelete (b w) k) as [wb [err|]]; simpl.
      * intros [= <- <-]. exists 0%nat. simpl. rewrite app_nil_r.
        split; [done|]. split; [done|]. split; [done|]. intros; lia.
      * intros Hrep. apply IH in Hrep as (n & Hops & Hsz & Hn & He).
        -- exists (S n). simpl in Hops.
           split; [by rewrite Hops, <- app_assoc|].
           split; [done|]. simpl. split.
           ++ intros Hnone. by rewrite Hn.
           ++ intros err Herr. specialize (He _ Herr). lia.
        -- simpl. rewrite opsSize_app, Hs, to_int_add_l.
           f_equal. unfold opsSize, opSize. simpl. lia.
Qed.

(** X13. [Replay] of a batch into another batch copies the recorded
    operations, in order, up to the first one the target refuses: the target
    then holds its own operations followed by a prefix of the source's, its
    [ValueSize] still is the sum over what it holds, and the prefix is the
    whole list exactly when [Replay] returns nil.  Replayed without error into
    a batch that holds nothing, a batch is reproduced with its
    [ValueSize]. *)
Theorem Replay_into_batch {DB WriteBatch DB' WriteBatch'} wbSet wbDelete
    (src : batch DB WriteBatch) (w w' : batch DB' WriteBatch') r :
  recorded (ops src) ->
  ValueSize src = to_int (opsSize (ops src)) ->
  ValueSize w = to_int (opsSize (ops w)) ->
  @Replay _ _ _ (batch_writer wbSet wbDelete) src w = (w', r) ->
  (exists n,
     ops w' = ops w ++ take n (ops src) /\
     (r = None -> n = length (ops src)) /\
     (forall err, r = Some err -> (n < length (ops src))%nat)) /\
  ValueSize w' = to_int (opsSize (ops w')) /\
  (r = None -> ops w = [] -> ops w' = ops src /\ ValueSize w' = ValueSize src).
Proof.
  intros Hrec Hsrc Hw Hrep. unfold Replay in Hrep.
  apply replayOps_batch in Hrep as (n & Hops & Hsz & Hn & He); [|done..].
  split; [by exists n|]. split; [done|].
  intros Hnone Hnil. rewrite Hn in Hops by done.
  rewrite firstn_all, Hnil in Hops. simpl in Hops.
  split; [done|]. by rewrite Hsz, Hsrc, Hops.
Qed.

Lemma Replay_into_batch_witness :
  (exists n,
     ops (mkBatch tt 1%nat (take 1 (ops sampleBatch)) 3)
       = [] ++ take n (ops sampleBatch) /\
     (Some (Failure "key too long") = None -> n = length (ops sampleBatch)) /\
     (forall err, Some (Failure "key too long") = Some err ->
        (n < length (ops sampleBatch))%nat)) /\
  ValueSize (mkBatch tt 1%nat (take 1 (ops sampleBatch)) 3)
    = to_int (opsSize (ops (mkBatch tt 1%nat (take 1 (ops sampleBatch)) 3))) /\
  (Some (Failure "key too long") = None -> @nil operation = [] ->
   ops (mkBatch tt 1%nat (take 1 (ops sampleBatch)) 3) = ops sampleBatch /\
   ValueSize (mkBatch tt 1%nat (take 1 (ops sampleBatch)) 3)
     = ValueSize sampleBatch).
Proof.
  apply (Replay_into_batch (fun wb k _ => shortKeys1 wb k) shortKeys1
           sampleBatch (mkBatch tt 0%nat [] 0)).
  - repeat constructor. discriminate.
  - reflexivity.
  - reflexivity.
  - reflexivity.
Defined.

Lemma advanced_shift {I} (Adv : I -> I) k i :
  advanced Adv k (Adv i) = Adv (advanced Adv k i).
Proof. induction k as [|k IH]; simpl; [done|by rewrite IH]. Qed.

Lemma calls_S {I} Valid Adv n (it : badgerIterator I) :
  calls Valid Adv (S n) it
    = ((calls Valid Adv n (Next Valid Adv it).1).1,
       (Next Valid Adv it).2 :: (calls Valid Adv n (Next Valid Adv it).1).2).
Proof. reflexivity. Qed.

Lemma Next_valid {I} Valid Adv (i : I) :
  Valid i = true ->
  Next Valid Adv (mkIterator i false)
    = (mkIterator (Adv i) false, Valid (Adv i)).
Proof. intros Hv. unfold Next. simpl. by rewrite Hv. Qed.

Lemma Next_invalid {I} Valid Adv (i : I) :
  Valid i = false ->
  Next Valid Adv (mkIterator i false) = (mkIterator i false, false).
Proof. intros Hv. unfold Next. simpl. by rewrite Hv. Qed.

Lemma calls_stuck {I} Valid Adv n (i : I) :
  Valid i = false ->
  calls Valid Adv n (mkIterator i false)
    = (mkIterator i false, replicate n false).
Proof.
  intros Hv. induction n as [|n IH]; [done|].
  rewrite calls_S, Next_invalid by done. cbn [fst snd]. by rewrite IH.
Qed.

Lemma calls_unmoved {I} Valid Adv n : forall i : I,
  Valid i = true ->
  (calls Valid Adv n (mkIterator i false)).2
    = replicate (remaining Valid Adv n (Adv i)) true
      ++ replicate (n - remaining Valid Adv n (Adv i)) false.
Proof.
  induction n as [|n IH]; intros i Hv; [done|].
  rewrite calls_S, Next_valid by done. cbn [fst snd remaining].
  destruct (Valid (Adv i)) eqn:Hv'.
  - rewrite (IH _ Hv'). done.
  - by rewrite calls_stuck.
Qed.

Lemma state_unmoved {I} Valid Adv k : forall n (i : I),
  Valid i = true -> (k < remaining Valid Adv n (Adv i))%nat ->
  iter (calls Valid Adv (S k) (mkIterator i false)).1 = advanced Adv (S k) i /\
  Valid (advanced Adv (S k) i) = true.
Proof.
  induction k as [|k IH]; intros [|n] i Hv Hk; simpl in Hk; try lia;
    destruct (Valid (Adv i)) eqn:Hv'; try lia;
    rewrite calls_S, Next_valid by done; cbn [fst snd].
  - done.
  - destruct (IH n (Adv i) Hv' ltac:(lia)) as [Hi Hval].
    rewrite Hi. cbn [advanced] in *. rewrite advanced_shift in *. done.
Qed.

Lemma state_exhausted {I} Valid Adv n : forall k (i : I),
  Valid i = true ->
  (remaining Valid Adv n (Adv i) < n)%nat ->
  (remaining Valid Adv n (Adv i) <= k)%nat ->
  iter (calls Valid Adv (S k) (mkIterator i false)).1
    = advanced Adv (S (remaining Valid Adv n (Adv i))) i.
Proof.
  induction n as [|n IH]; intros k i Hv Hn Hk; [simpl in Hn; lia|].
  rewrite calls_S, Next_valid by done. cbn [fst snd].
  cbn [remaining] in *. destruct (Valid (Adv i)) eqn:Hv'.
  - destruct k as [|k]; [lia|].
    rewrite (IH k (Adv i)) by (done || lia).
    cbn [advanced]. by rewrite advanced_shift.
  - by rewrite calls_stuck.
Qed.

(** X14. A run of [Next] calls on a fresh iterator returns [true] once for
    each item badger's iterator stands on before its first invalid position,
    and [false] ever after.  After the call number [k+1] that returned [true]
    the iterator stands on item [k]: the first item is not skipped and none is
    visited twice.  Once [Next] has returned [false], badger's iterator stays
    on its first invalid position and is not stepped again. *)
Theorem Next_visits_each_item_once {Iterator : Type} (Valid : Iterator -> bool)
    (Advance : Iterator -> Iterator) (i0 : Iterator) (n : nat) :
  (calls Valid Advance n (NewIterator i0)).2
    = replicate (remaining Valid Advance n i0) true
      ++ replicate (n - remaining Valid Advance n i0) false /\
  (forall k, (k < remaining Valid Advance n i0)%nat ->
     iter (calls Valid Advance (S k) (NewIterator i0)).1
       = advanced Advance k i0 /\
     Valid (advanced Advance k i0) = true) /\
  (forall k, (remaining Valid Advance n i0 < n)%nat ->
     (remaining Valid Advance n i0 <= k)%nat ->
     iter (calls Valid Advance (S k) (NewIterator i0)).1
       = advanced Advance (remaining Valid Advance n i0) i0 /\
     Valid (advanced Advance (remaining Valid Advance n i0) i0) = false).
Proof.
  assert (forall k, calls Valid Advance (S k) (NewIterator i0)
            = ((calls Valid Advance k (mkIterator i0 false)).1,
               Valid i0 :: (calls Valid Advance k (mkIterator i0 false)).2))
    as Hfirst by done.
  split; [|split].
  - destruct n as [|n]; [done|]. rewrite Hfirst. cbn [snd remaining].
    destruct (Valid i0) eqn:Hv.
    + by rewrite calls_unmoved.
    + by rewrite calls_stuck.
  - intros k Hk. rewrite Hfirst. cbn [fst].
    destruct n as [|n]; [simpl in Hk; lia|]. cbn [remaining] in Hk.
    destruct (Valid i0) eqn:Hv; [|lia].
    destruct k as [|k]; [done|].
    apply (state_unmoved Valid Advance k n); [done|lia].
  - intros k Hn Hk. rewrite Hfirst. cbn [fst].
    destruct n as [|n]; [lia|]. cbn [remaining] in *.
    destruct (Valid i0) eqn:Hv.
    + destruct k as [|k]; [lia|].
      rewrite (state_exhausted Valid Advance n) by (done || lia).
      split; [done|].
      clear Hk k Hfirst. revert i0 Hv Hn.
      induction n as [|n IH]; intros i0 Hv Hn; [lia|].
      cbn [remaining] in *. destruct (Valid (Advance i0)) eqn:Hv'; [|done].
      specialize (IH (Advance i0) Hv' ltac:(lia)).
      cbn [advanced] in *. by rewrite advanced_shift in IH.
    + by rewrite calls_stuck.
Qed.

End BadgerFacts.

(** ** The entries of a freezer table's index *)

Module FreezerIndexFacts.
Import FreezerIndex.

Lemma valOf_byteOf z : valOf (byteOf z) = z mod 256.
Proof.
  unfold valOf, byteOf.
  pose proof (Z.mod_pos_bound z 256 ltac:(lia)) as Hb.
  destruct (Byte.of_N (Z.to_N (z mod 256))) as [x|] eqn:Hx; simpl.
  - apply Byte.to_of_N in Hx. rewrite Hx. lia.
  - apply Byte.of_N_None_iff in Hx. lia.
Qed.

Lemma valOf_range x : 0 <= valOf x < 256.
Proof. unfold valOf. pose proof (Byte.to_N_bounded x). lia. Qed.

Lemma byteOf_valOf x : byteOf (valOf x) = x.
Proof.
  unfold byteOf. pose proof (valOf_range x) as Hr.
  rewrite Z.mod_small by done. unfold valOf. rewrite N2Z.id.
  by rewrite Byte.of_to_N.
Qed.

Lemma lor_shiftl_add lo hi k :
  0 <= k -> 0 <= lo < 2 ^ k -> 0 <= hi ->
  Z.lor lo (Z.shiftl hi k) = lo + hi * 2 ^ k.
Proof.
  intros Hk Hlo Hhi. rewrite Z.shiftl_mul_pow2 by done.
  assert (Z.land lo (hi * 2 ^ k) = 0) as Hland.
  { apply Z.bits_inj'; intros n Hn. rewrite Z.land_spec, Z.bits_0.
    destruct (Z.lt_ge_cases n k) as [Hlt|Hge].
    - rewrite Z.mul_pow2_bits_low by done. apply andb_false_r.
    - assert (Z.testbit lo n = false) as ->; [|done].
      destruct (Z.eq_dec lo 0) as [->|Hne]; [apply Z.bits_0|].
      apply Z.bits_above_log2; [lia|]. apply Z.log2_lt_pow2; [lia|].
      apply Z.lt_le_trans with (2 ^ k); [lia|].
      apply Z.pow_le_mono_r; lia. }
  by rewrite <- Z.lxor_lor, <- Z.add_nocarry_lxor.
Qed.

Lemma byteOf_mod z x : z mod 256 = valOf x -> byteOf z = x.
Proof.
  intros H. unfold byteOf. rewrite H. unfold valOf. rewrite N2Z.id.
  by rewrite Byte.of_to_N.
Qed.

Lemma byteOf_digit lo hi k x :
  0 < k -> 0 <= lo < k ->
  byteOf ((lo + (valOf x + hi * 256) * k) / k) = x.
Proof.
  intros Hk Hlo. rewrite Z.div_add, Z.div_small by lia.
  apply byteOf_mod. rewrite Z.add_0_l, Z.mod_add by lia.
  apply Z.mod_small, valOf_range.
Qed.

Lemma byteOf_low hi x z : z = valOf x + hi * 256 -> byteOf z = x.
Proof.
  intros ->. apply byteOf_mod. rewrite Z.mod_add by lia.
  apply Z.mod_small, valOf_range.
Qed.

Lemma byteOf_high lo hi k x z :
  0 < k -> 0 <= lo < k -> z = lo + (valOf x + hi * 256) * k ->
  byteOf (z / k) = x.
Proof. intros Hk Hlo ->. by apply byteOf_digit. Qed.

Lemma encoded_decoded b0 b1 b2 b3 b4 b5 :
  encoded (mkIndexEntry (valOf b1 + valOf b0 * 256)
             (valOf b5 + valOf b4 * 256 + valOf b3 * 65536
              + valOf b2 * 16777216))
  = [b0; b1; b2; b3; b4; b5].
Proof.
  pose proof (valOf_range b0). pose proof (valOf_range b1).
  pose proof (valOf_range b2). pose proof (valOf_range b3).
  pose proof (valOf_range b4). pose proof (valOf_range b5).
  unfold encoded. simpl. rewrite !Z.shiftr_div_pow2 by lia.
  change (2 ^ 8) with 256. change (2 ^ 16) with 65536.
  change (2 ^ 24) with 16777216.
  rewrite (Z.mod_small _ 65536) by lia.
  f_equal; [|f_equal; [|f_equal; [|f_equal; [|f_equal; [|f_equal]]]]].
  - apply (byteOf_high (valOf b1) 0); lia.
  - apply (byteOf_low (valOf b0)); lia.
  - apply (byteOf_high (valOf b5 + valOf b4 * 256 + valOf b3 * 65536) 0); lia.
  - apply (byteOf_high (valOf b5 + valOf b4 * 256) (valOf b2)); lia.
  - apply (byteOf_high (valOf b5) (valOf b3 + valOf b2 * 256)); lia.
  - apply (byteOf_low (valOf b4 + (valOf b3 + valOf b2 * 256) * 256)); lia.
Qed.

Lemma decode16 b0 b1 :
  Z.lor (valOf b1) (Z.shiftl (valOf b0) 8) = valOf b1 + valOf b0 * 256.
Proof.
  pose proof (valOf_range b0). pose proof (valOf_range b1).
  rewrite lor_shiftl_add by lia. lia.
Qed.

Lemma decode32 b0 b1 b2 b3 :
  Z.lor (Z.lor (Z.lor (valOf b3) (Z.shiftl (valOf b2) 8))
               (Z.shiftl (valOf b1) 16))
        (Z.shiftl (valOf b0) 24)
  = valOf b3 + valOf b2 * 256 + valOf b1 * 65536 + valOf b0 * 16777216.
Proof.
  pose proof (valOf_range b0). pose proof (valOf_range b1).
  pose proof (valOf_range b2). pose proof (valOf_range b3).
  rewrite (lor_shiftl_add (valOf b3)) by lia.
  rewrite (lor_shiftl_add (valOf b3 + _)) by lia.
  rewrite lor_shiftl_add by lia. lia.
Qed.

Lemma unmarshal_all s b0 b1 b2 b3 b4 b5 tl :
  elems s ++ spare s = b0 :: b1 :: b2 :: b3 :: b4 :: b5 :: tl ->
  unmarshalBinary s
    = Done (mkIndexEntry
              (valOf b1 + valOf b0 * 256)
              (valOf b5 + valOf b4 * 256 + valOf b3 * 65536
               + valOf b2 * 16777216)).
Proof.
  intros Hall. unfold unmarshalBinary, reslice, cap.
  rewrite <- length_app, Hall. simpl.
  by rewrite decode16, decode32.
Qed.

Lemma append_elems grow e s :
  append grow e s
    = Done (mkSlice (elems s ++ encoded e)
              (spare (goAppend grow s (replicate indexEntrySize Byte.x00)))).
Proof.
  unfold append.
  assert (elems (goAppend grow s (replicate indexEntrySize Byte.x00))
          = elems s ++ replicate indexEntrySize Byte.x00) as ->.
  { unfold goAppend. by destruct (_ <=? _)%nat. }
  unfold PutUint16.
  rewrite (proj2 (Nat.leb_le _ _)) by (rewrite length_app; simpl; lia).
  simpl. unfold PutUint32.
  rewrite (proj2 (Nat.leb_le _ _))
    by (rewrite !length_insert, length_app; simpl; lia).
  simpl. do 2 f_equal.
  rewrite !insert_app_r_alt by lia.
  replace (length (elems s) - length (elems s))%nat with 0%nat by lia.
  replace (S (length (elems s)) - length (elems s))%nat with 1%nat by lia.
  replace (length (elems s) + 2 - length (elems s))%nat with 2%nat by lia.
  replace (S (length (elems s) + 2) - length (elems s))%nat with 3%nat by lia.
  replace (S (S (length (elems s) + 2)) - length (elems s))%nat with 4%nat
    by lia.
  replace (S (S (S (length (elems s) + 2))) - length (elems s))%nat
    with 5%nat by lia.
  reflexivity.
Qed.

(** X15. [append] leaves the bytes of the slice as they are and adds exactly
    six: the low sixteen bits of the file number and the offset, big endian.
    [unmarshalBinary] of the added bytes gives back the offset and the file
    number modulo 65536: the entry itself when its file number is below
    65536. *)
Theorem append_then_unmarshal grow e s :
  0 <= filenum e -> 0 <= offset e < 2 ^ 32 ->
  exists out,
    append grow e s = Done out /\
    elems out = elems s ++ encoded e /\
    length (elems out) = (length (elems s) + indexEntrySize)%nat /\
    (tl ← resliceFrom out (length (elems s)); unmarshalBinary tl)
      = Done (mkIndexEntry (filenum e mod 2 ^ 16) (offset e)) /\
    (filenum e < 2 ^ 16 ->
     (tl ← resliceFrom out (length (elems s)); unmarshalBinary tl) = Done e).
Proof.
  intros Hf Ho. eexists. split; [apply append_elems|]. simpl.
  split; [done|]. split; [by rewrite length_app|].
  assert ((tl ← resliceFrom
             (mkSlice (elems s ++ encoded e)
                (spare (goAppend grow s (replicate indexEntrySize Byte.x00))))
             (length (elems s)); unmarshalBinary tl)
          = Done (mkIndexEntry (filenum e mod 2 ^ 16) (offset e))) as Hback.
  { unfold resliceFrom. simpl.
    replace (length (elems s) <=? length (elems s ++ encoded e))%nat
      with true by (symmetry; apply Nat.leb_le; rewrite length_app; lia).
    simpl. rewrite drop_app_length.
    erewrite unmarshal_all by reflexivity.
    rewrite !valOf_byteOf, !Z.shiftr_div_pow2 by lia.
    pose proof (Z.mod_pos_bound (filenum e) (2 ^ 16) ltac:(lia)) as Hm.
    revert Hm. generalize (filenum e mod 2 ^ 16). intros m Hm.
    change (2 ^ 8) with 256. change (2 ^ 16) with 65536 in *.
    change (2 ^ 24) with 16777216. change (2 ^ 32) with 4294967296 in *.
    replace (offset e / 65536) with (offset e / 256 / 256)
      by (rewrite Z.div_div by lia; done).
    replace (offset e / 16777216) with (offset e / 256 / 256 / 256)
      by (rewrite !Z.div_div by lia; done).
    f_equal. f_equal.
    - pose proof (Z.div_mod m 256 ltac:(lia)).
      pose proof (Z.mod_pos_bound m 256 ltac:(lia)).
      rewrite (Z.mod_small (m / 256)); [lia|].
      split; [apply Z.div_pos; lia|apply Z.div_lt_upper_bound; lia].
    - pose proof (Z.div_mod (offset e) 256 ltac:(lia)).
      pose proof (Z.div_mod (offset e / 256) 256 ltac:(lia)).
      pose proof (Z.div_mod (offset e / 256 / 256) 256 ltac:(lia)).
      rewrite (Z.mod_small (offset e / 256 / 256 / 256)); [lia|].
      split; [repeat apply Z.div_pos; lia|].
      repeat (apply Z.div_lt_upper_bound; [lia|]). lia. }
  split; [done|].
  intros Hlt.
  transitivity (Done (mkIndexEntry (filenum e mod 2 ^ 16) (offset e)));
    [exact Hback|].
  destruct e as [f o]. simpl in *. by rewrite Z.mod_small by lia.
Qed.

Lemma append_then_unmarshal_witness :
  exists out,
    append (fun _ n => n) (mkIndexEntry 65539 4660)
      (mkSlice [Byte.xff] [Byte.x01]) = Done out /\
    elems out = [Byte.xff] ++ encoded (mkIndexEntry 65539 4660) /\
    length (elems out) = (1 + indexEntrySize)%nat /\
    (tl ← resliceFrom out 1; unmarshalBinary tl)
      = Done (mkIndexEntry (65539 mod 2 ^ 16) 4660) /\
    (65539 < 2 ^ 16 ->
     (tl ← resliceFrom out 1; unmarshalBinary tl)
       = Done (mkIndexEntry 65539 4660)).
Proof.
  apply (append_then_unmarshal (fun _ n => n) (mkIndexEntry 65539 4660)
           (mkSlice [Byte.xff] [Byte.x01])); simpl; lia.
Defined.

(** X16. [unmarshalBinary] reads the first six bytes of the backing array,
    whatever the length of the slice: with a capacity of six or more it
    returns an entry whose file number is below 65536 and whose offset is
    below 2^32, and [append] of that entry to an empty slice gives those six
    bytes back; with a capacity below six it panics. *)
Theorem unmarshal_then_append grow s :
  ((6 <= cap s)%nat ->
   exists e out,
     unmarshalBinary s = Done e /\
     0 <= filenum e < 2 ^ 16 /\ 0 <= offset e < 2 ^ 32 /\
     append grow e (mkSlice [] []) = Done out /\
     elems out = take 6 (elems s ++ spare s)) /\
  ((cap s < 6)%nat -> unmarshalBinary s = Panic).
Proof.
  split.
  - intros Hcap. unfold cap in Hcap. rewrite <- length_app in Hcap.
    destruct (elems s ++ spare s)
      as [|b0 [|b1 [|b2 [|b3 [|b4 [|b5 tl]]]]]] eqn:Hall;
      simpl in Hcap; try lia.
    eexists. eexists. split; [by apply unmarshal_all with (tl := tl)|].
    pose proof (valOf_range b0). pose proof (valOf_range b1).
    pose proof (valOf_range b2). pose proof (valOf_range b3).
    pose proof (valOf_range b4). pose proof (valOf_range b5).
    change (2 ^ 16) with 65536. change (2 ^ 32) with 4294967296.
    simpl. split; [lia|]. split; [lia|].
    split; [apply append_elems|]. simpl. apply encoded_decoded.
  - intros Hcap. unfold unmarshalBinary.
    assert (reslice s 2 6 = Panic) as Hr6.
    { unfold reslice. rewrite (proj2 (Nat.leb_gt 6 (cap s))) by lia.
      by rewrite andb_false_r. }
    destruct (reslice s 0 2) as [s1| |] eqn:H1; [|done|].
    + cbn [mbind outcome_bind].
      destruct (Uint16 (elems s1)) as [f| |] eqn:Hu; [|done|].
      * cbn [mbind outcome_bind]. by rewrite Hr6.
      * unfold Uint16 in Hu. by destruct (elems s1) as [|c0 [|c1 tl]].
    + unfold reslice in H1. by destruct (_ && _) in H1.
Qed.

End FreezerIndexFacts.

(** ** Connecting the peers *)

Module WiringFacts.
Import emu GenCmd Wiring.

Lemma handles_elem iter : forall acc a,
  a ∈ handles iter acc <->
  a ∈ acc \/ exists k nd, (k, nd) ∈ iter /\ Address nd = a.
Proof.
  induction iter as [|[k nd] iter IH]; intros acc a; simpl.
  - split; [by left|]. intros [H|(k & nd & H%elem_of_nil & _)]; done.
  - rewrite IH, elem_of_union, elem_of_singleton. split.
    + intros [[->|H]|(k' & nd' & Hin & Ha)].
      * right. exists k, nd. split; [by left|done].
      * by left.
      * right. exists k', nd'. split; [by right|done].
    + intros [H|(k' & nd' & Hin & Ha)].
      * left. by right.
      * apply elem_of_cons in Hin as [[= -> ->]|Hin].
        -- left. by left.
        -- right. by exists k', nd'.
Qed.

Lemma dialPeers_Done nodes self peers :
  self ∈ nodes -> (forall p, p ∈ peers -> p ∈ nodes) ->
  dialPeers nodes self peers = Done (mkDial self <$> peers).
Proof.
  intros Hself. induction peers as [|p peers IH]; intros Hall; [done|].
  simpl. rewrite decide_True by done.
  rewrite decide_True by (apply Hall; left).
  rewrite IH by (intros q Hq; apply Hall; by right). done.
Qed.

Lemma dialPeers_missing nodes self peers p :
  p ∈ peers -> p ∉ nodes -> dialPeers nodes self peers = Panic.
Proof.
  intros Hin Hp. induction peers as [|q peers IH]; [by apply elem_of_nil in Hin|].
  simpl. destruct (decide (self ∈ nodes)); [|done].
  destruct (decide (q ∈ nodes)) as [Hq|Hq]; [|done].
  apply elem_of_cons in Hin as [->|Hin]; [done|].
  by rewrite IH.
Qed.

Lemma wire_Done nodes iter :
  (forall k nd, (k, nd) ∈ iter ->
     Address nd ∈ nodes /\ forall p, p ∈ Peers nd -> p ∈ nodes) ->
  exists dials,
    wire nodes iter = Done dials /\
    forall a b, mkDial a b ∈ dials <->
      exists k nd, (k, nd) ∈ iter /\ Address nd = a /\ b ∈ Peers nd.
Proof.
  induction iter as [|[k nd] iter IH]; intros Hall.
  - exists []. split; [done|]. intros a b. split.
    + by intros ?%elem_of_nil.
    + by intros (? & ? & ?%elem_of_nil & _).
  - destruct IH as (ds' & Hw & Hds').
    { intros k' nd' Hin. apply (Hall k' nd'). by right. }
    destruct (Hall k nd ltac:(left)) as [Hself Hpeers].
    exists ((mkDial (Address nd) <$> Peers nd) ++ ds'). split.
    + simpl. rewrite dialPeers_Done by done. simpl. by rewrite Hw.
    + intros a b. rewrite elem_of_app, list_elem_of_fmap, Hds'. split.
      * intros [(p & [= -> ->] & Hp)|(k' & nd' & Hin & Ha & Hb)].
        -- exists k, nd. split; [by left|done].
        -- exists k', nd'. split; [by right|done].
      * intros (k' & nd' & Hin & Ha & Hb).
        apply elem_of_cons in Hin as [[= -> ->]|Hin].
        -- left. exists b. by rewrite Ha.
        -- right. by exists k', nd'.
Qed.

Lemma wire_missing nodes iter k nd p :
  (k, nd) ∈ iter -> p ∈ Peers nd -> p ∉ nodes -> wire nodes iter = Panic.
Proof.
  intros Hin Hp Hmiss.
  induction iter as [|[k' nd'] iter IH]; [by apply elem_of_nil in Hin|].
  simpl. apply elem_of_cons in Hin as [[= <- <-]|Hin].
  - by rewrite (dialPeers_missing _ _ _ p).
  - destruct (dialPeers nodes (Address nd') (Peers nd')) as [ds| |] eqn:Hd;
      [|done|].
    + simpl. by rewrite IH.
    + exfalso. clear -Hd. induction (Peers nd') as [|q l IHl]; [done|].
      simpl in Hd. destruct (decide _); [|done]. destruct (decide _); [|done].
      destruct (dialPeers nodes (Address nd') l); [done|done|by apply IHl].
Qed.

Lemma generated_links Iter fuel rnd minPeer maxPeer nodes nodes' :
  (forall s, Iter s ≡ₚ elements s) ->
  NoDup (Address <$> nodes) ->
  Forall (fun nd => Peers nd = []) nodes ->
  GenDegree.setPeers Iter fuel rnd minPeer maxPeer nodes = Done nodes' ->
  forall a p, a ∈ nodes' -> p ∈ Peers a ->
    exists b, b ∈ nodes' /\ Address b = p /\ Address a ∈ Peers b /\
      p <> Address a.
Proof.
  intros HIter Hnd Hfresh Hset a p Ha Hp.
  destruct (GenDegreeFacts.setPeers_inv _ _ _ _ _ _ _ Hset)
    as (peers & [Hlen Hwf] & _ & Has).
  pose proof (GenDegreeFacts.assign_length _ _ _ _ Hlen Has) as Hlen'.
  apply list_elem_of_lookup_1 in Ha as [i Hi].
  destruct (GenDegreeFacts.assign_lookup _ _ _ _ _ _ Hlen Hfresh Has Hi)
    as (nd & s & Hnd_i & Hs & Haddr & Hpeers).
  rewrite Hpeers in Hp. apply list_elem_of_fmap in Hp as (j & -> & Hj).
  rewrite HIter in Hj. apply elem_of_elements in Hj.
  destruct (Hwf i s Hs j Hj) as (Hjn & Hji & t & Ht & Hit).
  destruct (lookup_lt_is_Some_2 nodes' j) as [b Hb]; [lia|].
  destruct (GenDegreeFacts.assign_lookup _ _ _ _ _ _ Hlen Hfresh Has Hb)
    as (ndj & t' & Hndj & Ht' & Haddrb & Hpeersb).
  rewrite Ht in Ht'. injection Ht' as <-.
  exists b. split; [by eapply list_elem_of_lookup_2|]. split.
  - rewrite Haddrb. unfold addrAt. by rewrite Hndj.
  - split.
    + rewrite Hpeersb, Haddr. apply list_elem_of_fmap. exists i. split.
      * unfold addrAt. by rewrite Hnd_i.
      * rewrite HIter. by apply elem_of_elements.
    + rewrite Haddr. intros Heq. apply Hji.
      apply (addrAt_inj nodes j i Hnd); [lia|by eapply lookup_lt_Some|].
      rewrite Heq. unfold addrAt. by rewrite Hnd_i.
Qed.





End WiringFacts.

(** ** Expiring the pending requests *)

Module TrackerFacts.
Import Tracker.

Lemma expireLoop_spec clock tmo : forall exp pend k,
  NoDup exp -> (forall id, id ∈ exp -> is_Some (pend !! id)) ->
  exists dropped kept pend' k',
    expireLoop clock k tmo pend exp = Done (pend', kept, k') /\
    exp = dropped ++ kept /\
    (forall id, pend' !! id
                = if decide (id ∈ dropped) then None else pend !! id) /\
    (forall i id req, dropped !! i = Some id -> pend !! id = Some req ->
       to_int (tmo + 5 * Continuous.Millisecond)
         <= Since (clock (k + i)%nat) (time req)) /\
    (forall id req, head kept = Some id -> pend !! id = Some req ->
       Since (clock (k + length dropped)%nat) (time req)
         < to_int (tmo + 5 * Continuous.Millisecond)).
Proof.
  induction exp as [|id rest IH]; intros pend k Hnd Hall.
  - exists [], [], pend, k. split; [done|]. split; [done|].
    split; [|split]; [by intros id|by intros i id req ?|by intros id req ?].
  - apply list.NoDup_cons in Hnd as [Hid Hnd].
    destruct (Hall id ltac:(left)) as [req Hreq]. simpl. rewrite Hreq.
    destruct (Z.ltb_spec (Since (clock k) (time req))
                (to_int (tmo + 5 * Continuous.Millisecond))) as [Hlt|Hge].
    + exists [], (id :: rest), pend, (S k). split; [done|]. split; [done|].
      split; [by intros id'|]. split; [by intros i id' req' ?|].
      intros id' req' [= <-] Hr. rewrite Hreq in Hr. injection Hr as <-.
      by rewrite Nat.add_0_r.
    + destruct (IH (delete id pend) (S k) Hnd)
        as (dropped & kept & pend' & k' & Hrun & Hsplit & Hlook & Hdead & Hlive).
      { intros id' Hin. rewrite lookup_delete_ne by (by intros ->).
        apply Hall. by right. }
      exists (id :: dropped), kept, pend', k'.
      split; [done|]. split; [by rewrite Hsplit|]. split; [|split].
      * intros id'. rewrite Hlook.
        destruct (decide (id' = id)) as [->|Hne].
        -- rewrite lookup_delete_eq.
           rewrite (decide_True (P := id ∈ id :: dropped)) by left.
           by destruct (decide (id ∈ dropped)).
        -- rewrite lookup_delete_ne by done.
           destruct (decide (id' ∈ dropped)) as [Hd|Hd].
           ++ by rewrite decide_True by (by right).
           ++ rewrite decide_False; [done|].
              by intros [?|?]%elem_of_cons.
      * intros [|i] id' req' Hi Hr; simpl in Hi.
        -- injection Hi as <-. rewrite Hreq in Hr. injection Hr as <-.
           by rewrite Nat.add_0_r.
        -- replace (k + S i)%nat with (S k + i)%nat by lia.
           apply (Hdead i id' req' Hi).
           rewrite lookup_delete_ne; [done|].
           intros <-. apply Hid. rewrite Hsplit. apply elem_of_app. left.
           by eapply list_elem_of_lookup_2.
      * intros id' req' Hh Hr. simpl.
        replace (k + S (length dropped))%nat with (S k + length dropped)%nat
          by lia.
        apply (Hlive id' req' Hh).
        rewrite lookup_delete_ne; [done|].
        intros <-. apply Hid. rewrite Hsplit. apply elem_of_app. right.
        destruct kept; [done|]. injection Hh as ->. left.
Qed.

(** X19. On a tracker whose expiration list holds the ids of its pending
    requests, each once, [clean] returns and keeps it so.  It drops a prefix
    of the list and exactly those requests from the map, each of them older
    than the timeout plus 5 ms when the clock was read for it; the request
    now at the front, if any, was younger at its reading; every other request
    is as it was; and [wake] is nil exactly when nothing is pending.  When
    the id at the front of the list is not in the map, [clean] panics. *)
Theorem clean_keeps_tracked clock t :
  tracked t ->
  (exists t' dropped,
     clean clock t = Done t' /\ tracked t' /\
     timeout t' = timeout t /\
     expire t = dropped ++ expire t' /\
     (forall id, pending t' !! id
                 = if decide (id ∈ dropped) then None else pending t !! id) /\
     (forall i id req, dropped !! i = Some id -> pending t !! id = Some req ->
        to_int (timeout t + 5 * Continuous.Millisecond)
          <= Since (clock i) (time req)) /\
     (forall id req, head (expire t') = Some id ->
        pending t !! id = Some req ->
        Since (clock (length dropped)) (time req)
          < to_int (timeout t + 5 * Continuous.Millisecond)) /\
     (wake t' = None <-> expire t' = [])) /\
  (forall t0 id rest, expire t0 = id :: rest -> pending t0 !! id = None ->
     clean clock t0 = Panic).
Proof.
  intros [Hnd Hiff]. split.
  - destruct (expireLoop_spec clock (timeout t) (expire t) (pending t) 0 Hnd)
      as (dropped & kept & pend' & k' & Hrun & Hsplit & Hlook & Hdead & Hlive).
    { intros id Hin. by apply Hiff. }
    assert (NoDup kept /\
            forall id, id ∈ kept <-> is_Some (pend' !! id)) as Htracked.
    { rewrite Hsplit in Hnd. apply list.NoDup_app in Hnd as (_ & Hdisj & Hk).
      split; [done|]. intros id. rewrite Hlook. split.
      - intros Hin. rewrite decide_False by (intros Hd; by apply (Hdisj id)).
        apply Hiff. rewrite Hsplit. apply elem_of_app. by right.
      - destruct (decide (id ∈ dropped)) as [Hd|Hd];
          [by intros [? ?]|].
        intros Hs%Hiff. rewrite Hsplit in Hs.
        by apply elem_of_app in Hs as [?|?]. }
    unfold clean. rewrite Hrun. cbn [mbind outcome_bind fst snd].
    unfold schedule. cbn [expire pending protocol timeout].
    destruct kept as [|id kept'].
    + eexists. exists dropped. split; [reflexivity|]. simpl.
      split; [done|]. split; [done|]. split; [done|]. split; [done|].
      split; [done|]. split; [done|]. done.
    + destruct (proj1 (proj2 Htracked id) ltac:(left)) as [req Hreq].
      rewrite Hreq. eexists. exists dropped. split; [reflexivity|]. simpl.
      split; [done|]. split; [done|]. split; [done|]. split; [done|].
      split; [done|]. split; [done|]. done.
  - intros t0 id rest Hexp Hnone. unfold clean. rewrite Hexp. simpl.
    by rewrite Hnone.
Qed.

Lemma clean_keeps_tracked_witness :
  (exists t' dropped,
     clean (fun k => 50000000 + Z.of_nat k) sampleTracker = Done t' /\
     tracked t' /\
     timeout t' = timeout sampleTracker /\
     expire sampleTracker = dropped ++ expire t' /\
     (forall id, pending t' !! id
                 = if decide (id ∈ dropped) then None
                   else pending sampleTracker !! id) /\
     (forall i id req, dropped !! i = Some id ->
        pending sampleTracker !! id = Some req ->
        to_int (timeout sampleTracker + 5 * Continuous.Millisecond)
          <= Since (50000000 + Z.of_nat i) (time req)) /\
     (forall id req, head (expire t') = Some id ->
        pending sampleTracker !! id = Some req ->
        Since (50000000 + Z.of_nat (length dropped)) (time req)
          < to_int (timeout sampleTracker + 5 * Continuous.Millisecond)) /\
     (wake t' = None <-> expire t' = [])) /\
  (forall t0 id rest, expire t0 = id :: rest -> pending t0 !! id = None ->
     clean (fun k => 50000000 + Z.of_nat k) t0 = Panic).
Proof.
  apply (clean_keeps_tracked (fun k => 50000000 + Z.of_nat k) sampleTracker).
  split.
  - apply (bool_decide_unpack _). vm_compute. exact I.
  - intros id. simpl. rewrite !elem_of_cons, elem_of_nil.
    destruct (decide (id = 7)) as [->|H7]; [by split; [eexists|left]|].
    destruct (decide (id = 9)) as [->|H9]; [by split; [eexists|right; left]|].
    rewrite !lookup_insert_ne, lookup_empty by done.
    split; [by intros [|[|]]|by intros []].
Defined.

End TrackerFacts.
